(** * iptv playlist tooling: a shallow embedding of [scripts/parser.js] and of
    the formatting pipeline ([loadPlaylist .. savePlaylist]).

    JavaScript strings are embedded as [string]; a character stands for the
    code unit with the same number (U+0000 .. U+00FF).  The character classes
    of the regular expressions and of [trim] are the restrictions of the
    ECMAScript ones to that range.  [toLowerCase] is the one of ECMAScript on
    that range.  [toUpperCase] is the one of ECMAScript on the strings without
    U+00B5, U+00DF and U+00FF: the upper-case forms of these three are not
    code units of the range, the embedding leaves them as they are, and what
    is stated about the upper-cased value of a string excludes them.  Numbers
    produced by [parseInt] are embedded as [N], which is what they are below
    2^53; a number is printed with all its digits, which is how a template
    literal prints it in that range.

    The helpers of [utils.js] and the table of [categories.js] are parameters
    of the definitions that call them. *)

From stdpp Require Import gmap strings list pretty.
From Stdlib Require Import Ascii String NArith Permutation Sorted.

Local Open Scope N_scope.

(** ** JavaScript primitives used by the scripts *)

Module JS.

(** A value that is either [undefined]/[null] or a string. *)
Inductive value : Type :=
| undefined
| str (s : string).

Definition code (c : ascii) : N := N_of_ascii c.

Definition in_range (lo hi : N) (c : ascii) : bool :=
  (lo <=? code c) && (code c <=? hi).

(** [\d] *)
Definition is_digit (c : ascii) : bool := in_range 48 57 c.
Definition is_lower (c : ascii) : bool := in_range 97 122 c.
Definition is_upper (c : ascii) : bool := in_range 65 90 c.

(** WhiteSpace and LineTerminator code units, as stripped by [trim]. *)
Definition is_white_space (c : ascii) : bool :=
  match code c with
  | 9 | 10 | 11 | 12 | 13 | 32 | 160 => true
  | _ => false
  end.

(** The code units that [.] does not match. *)
Definition is_line_terminator (c : ascii) : bool :=
  match code c with
  | 10 | 13 => true
  | _ => false
  end.

(** The lower-case letters whose upper-case form is a code unit of the
    range: a to z, and U+00E0 to U+00FE but for the division sign. *)
Definition is_lower_letter (c : ascii) : bool :=
  is_lower c || (in_range 224 254 c && negb (code c =? 247)).

(** The upper-case letters: A to Z, and U+00C0 to U+00DE but for the
    multiplication sign. *)
Definition is_upper_letter (c : ascii) : bool :=
  is_upper c || (in_range 192 222 c && negb (code c =? 215)).

(** The three lower-case letters whose upper-case form lies outside the
    range: the micro sign, the sharp s and the y with diaeresis. *)
Definition upper_outside (c : ascii) : bool :=
  match code c with
  | 181 | 223 | 255 => true
  | _ => false
  end.

Definition upper_char (c : ascii) : ascii :=
  if is_lower_letter c then ascii_of_N (code c - 32) else c.

Definition lower_char (c : ascii) : ascii :=
  if is_upper_letter c then ascii_of_N (code c + 32) else c.

Fixpoint map_chars (f : ascii → ascii) (s : string) : string :=
  match s with
  | EmptyString => EmptyString
  | String c s' => String (f c) (map_chars f s')
  end.

Definition toUpperCase : string → string := map_chars upper_char.
Definition toLowerCase : string → string := map_chars lower_char.

(** Truthiness of a string, of a string-or-undefined and of a number. *)
Definition truthy (s : string) : bool :=
  match s with
  | EmptyString => false
  | String _ _ => true
  end.

Definition truthy_value (v : value) : bool :=
  match v with
  | undefined => false
  | str s => truthy s
  end.

Definition truthy_number (n : option N) : bool :=
  match n with
  | Some n => negb (n =? 0)
  | None => false
  end.

(** What a template literal prints for a string-or-undefined. *)
Definition show (v : value) : string :=
  match v with
  | undefined => "undefined"
  | str s => s
  end.

Fixpoint trimStart (s : string) : string :=
  match s with
  | EmptyString => EmptyString
  | String c s' => if is_white_space c then trimStart s' else s
  end.

Fixpoint trimEnd (s : string) : string :=
  match s with
  | EmptyString => EmptyString
  | String c s' =>
      match trimEnd s' with
      | EmptyString => if is_white_space c then EmptyString else String c EmptyString
      | r => String c r
      end
  end.

Definition trim (s : string) : string := trimEnd (trimStart s).

(** [s.split(sep)] for a separator of one character. *)
Fixpoint split (sep : ascii) (s : string) : list string :=
  match s with
  | EmptyString => [EmptyString]
  | String c s' =>
      if Ascii.eqb c sep then EmptyString :: split sep s'
      else match split sep s' with
           | t :: ts => String c t :: ts
           | [] => [String c EmptyString]
           end
  end.

(** [l.join(sep)] *)
Fixpoint join (sep : string) (l : list string) : string :=
  match l with
  | [] => EmptyString
  | [t] => t
  | t :: l' => t +:+ sep +:+ join sep l'
  end.

(** [arr.includes(x)] on strings. *)
Definition includes (l : list string) (x : string) : bool :=
  existsb (String.eqb x) l.

(** The longest prefix of digits, and what follows it: how a greedy
    [\d+] consumes its input. *)
Fixpoint span_digits (s : string) : string * string :=
  match s with
  | EmptyString => (EmptyString, EmptyString)
  | String c s' =>
      if is_digit c
      then let '(ds, r) := span_digits s' in (String c ds, r)
      else (EmptyString, s)
  end.

Definition digit_value (c : ascii) : N := code c - 48.

Fixpoint parseInt_acc (acc : N) (ds : string) : N :=
  match ds with
  | EmptyString => acc
  | String c ds' => parseInt_acc (10 * acc + digit_value c) ds'
  end.

(** [parseInt] on a string of decimal digits. *)
Definition parseInt (ds : string) : N := parseInt_acc 0 ds.

(** Does the string contain the character? *)
Fixpoint contains (c : ascii) (s : string) : bool :=
  match s with
  | EmptyString => false
  | String a s' => Ascii.eqb a c || contains c s'
  end.

(** Does some character of the string satisfy [f]? *)
Fixpoint some_char (f : ascii → bool) (s : string) : bool :=
  match s with
  | EmptyString => false
  | String a s' => f a || some_char f s'
  end.

(** The text before the last occurrence of [c], if [c] occurs. *)
Fixpoint before_last (c : ascii) (s : string) : option string :=
  match s with
  | EmptyString => None
  | String a s' =>
      match before_last c s' with
      | Some p => Some (String a p)
      | None => if Ascii.eqb a c then Some EmptyString else None
      end
  end.

(** The longest prefix a greedy run of [.] can consume. *)
Fixpoint line_prefix (s : string) : string :=
  match s with
  | EmptyString => EmptyString
  | String a s' =>
      if is_line_terminator a then EmptyString else String a (line_prefix s')
  end.

(** If [s] starts with [p], what follows [p]. *)
Fixpoint strip_prefix (p s : string) : option string :=
  match p, s with
  | EmptyString, _ => Some s
  | String a p', String b s' =>
      if Ascii.eqb a b then strip_prefix p' s' else None
  | String _ _, EmptyString => None
  end.

End JS.

(** ** scripts/parser.js *)

Module Parser.

Record Resolution := { width : option N; height : option N }.

Record Title := {
  channelName : string;
  streamStatus : option string;
  streamResolution : Resolution
}.

(** [/\[|\]/i.test(s)] *)
Definition bracket_test (s : string) : bool :=
  JS.contains "[" s || JS.contains "]" s.

(** [/\((\d+)P\)/i] anchored at the start of [s]; the result is the
    first capture group.  The greedy [\d+] takes every digit: giving one
    back would leave a digit where [P] is required. *)
Definition resolution_at (s : string) : option string :=
  match s with
  | String c r =>
      if Ascii.eqb c "(" then
        match JS.span_digits r with
        | (String d ds, String p (String q _)) =>
            if (Ascii.eqb p "P" || Ascii.eqb p "p") && Ascii.eqb q ")"
            then Some (String d ds) else None
        | _ => None
        end
      else None
  | EmptyString => None
  end.

(** [s.match(/\((\d+)P\)/i)]: the leftmost match. *)
Fixpoint resolution_match (s : string) : option string :=
  match resolution_at s with
  | Some ds => Some ds
  | None =>
      match s with
      | EmptyString => None
      | String _ s' => resolution_match s'
      end
  end.

(** [/\((\d+)P\)/i.test(s)] *)
Definition resolution_test (s : string) : bool :=
  match resolution_match s with
  | Some _ => true
  | None => false
  end.

(** The status pattern (an opening bracket, a greedy capture of any
    characters but line terminators, a closing bracket) anchored at the
    start of [s]: after the opening bracket the greedy capture runs to the
    end of the line and backtracks to the last closing bracket on it. *)
Definition status_at (s : string) : option string :=
  match s with
  | String c r =>
      if Ascii.eqb c "[" then JS.before_last "]" (JS.line_prefix r) else None
  | EmptyString => None
  end.

(** [title.match] with the status pattern: the leftmost match. *)
Fixpoint status_match (s : string) : option string :=
  match status_at s with
  | Some t => Some t
  | None =>
      match s with
      | EmptyString => None
      | String _ s' => status_match s'
      end
  end.

Definition keep_token (s : string) : bool :=
  negb (bracket_test s) && negb (resolution_test s).

Definition title_tokens (title : string) : list string :=
  List.filter keep_token (map JS.trim (JS.split " " (JS.trim title))).

Definition parseTitle (title : string) : Title :=
  let channelName := JS.join " " (title_tokens title) in
  let streamStatus := status_match title in
  let streamResolutionHeight := JS.parseInt <$> resolution_match title in
  {| channelName := channelName;
     streamStatus := streamStatus;
     streamResolution := {| width := None; height := streamResolutionHeight |} |}.

(** *** The data model *)

(** The guide attributes of an entry, an object shared between the raw
    item and the channel built from it. *)
Record Tvg := {
  tvg_id : string;
  tvg_name : JS.value;
  tvg_country : string;
  tvg_language : string;
  tvg_logo : string;
  tvg_url : string
}.

Record Http := { http_referrer : string; http_user_agent : string }.

(** A raw playlist entry, as the playlist parser delivers it. *)
Record Item := {
  item_name : string;
  item_tvg : Tvg;
  item_group_title : string;
  item_http : Http;
  item_url : string
}.

(** The header attributes, in the order [for .. in] enumerates them. *)
Record Header := { attrs : list (string * string) }.

Record Country := { country_code : string; country_name : JS.value }.
Record Language := { language_code : JS.value; language_name : string }.
Record Category := { category_id : string; category_name : string }.

Record Channel := {
  tvg : Tvg;
  http : Http;
  url : string;
  logo : string;
  name : string;
  status : option string;
  resolution : Resolution;
  countries : list Country;
  languages : list Language;
  category : string
}.

Record Playlist := {
  playlist_url : string;
  header : Header;
  channels : list Channel
}.

(** Assignments to one property. *)
Definition set_tvg_name (v : JS.value) (t : Tvg) : Tvg :=
  {| tvg_id := tvg_id t; tvg_name := v; tvg_country := tvg_country t;
     tvg_language := tvg_language t; tvg_logo := tvg_logo t; tvg_url := tvg_url t |}.

Definition set_tvg_country (v : string) (t : Tvg) : Tvg :=
  {| tvg_id := tvg_id t; tvg_name := tvg_name t; tvg_country := v;
     tvg_language := tvg_language t; tvg_logo := tvg_logo t; tvg_url := tvg_url t |}.

Definition set_tvg_url (v : string) (t : Tvg) : Tvg :=
  {| tvg_id := tvg_id t; tvg_name := tvg_name t; tvg_country := tvg_country t;
     tvg_language := tvg_language t; tvg_logo := tvg_logo t; tvg_url := v |}.

Definition set_tvg (t : Tvg) (c : Channel) : Channel :=
  {| tvg := t; http := http c; url := url c; logo := logo c; name := name c;
     status := status c; resolution := resolution c; countries := countries c;
     languages := languages c; category := category c |}.

Definition set_countries (cs : list Country) (c : Channel) : Channel :=
  {| tvg := tvg c; http := http c; url := url c; logo := logo c; name := name c;
     status := status c; resolution := resolution c; countries := cs;
     languages := languages c; category := category c |}.

Definition set_languages (ls : list Language) (c : Channel) : Channel :=
  {| tvg := tvg c; http := http c; url := url c; logo := logo c; name := name c;
     status := status c; resolution := resolution c; countries := countries c;
     languages := ls; category := category c |}.

Definition set_logo (v : string) (c : Channel) : Channel :=
  {| tvg := tvg c; http := http c; url := url c; logo := v; name := name c;
     status := status c; resolution := resolution c; countries := countries c;
     languages := languages c; category := category c |}.

Definition set_resolution (r : Resolution) (c : Channel) : Channel :=
  {| tvg := tvg c; http := http c; url := url c; logo := logo c; name := name c;
     status := status c; resolution := r; countries := countries c;
     languages := languages c; category := category c |}.

Definition set_channels (cs : list Channel) (p : Playlist) : Playlist :=
  {| playlist_url := playlist_url p; header := header p; channels := cs |}.

(** [header.attrs[key]] *)
Fixpoint get_attr (key : string) (l : list (string * string)) : JS.value :=
  match l with
  | [] => JS.undefined
  | (k, v) :: l' => if String.eqb k key then JS.str v else get_attr key l'
  end.

(** [v || ''] *)
Definition or_empty (v : JS.value) : string :=
  match v with
  | JS.str (String c s) => String c s
  | _ => EmptyString
  end.

(** *** Channel normalization *)

Section Normalizer.

(** The helpers of [utils.js] and the table of [categories.js]. *)
Variable region2codes : string → list string.
Variable code2name : string → JS.value.
Variable language2code : string → JS.value.
Variable getBasename : string → string.
Variable categories : list Category.

(** The inner loop of the reducer: [for (let code of codes)]. *)
Definition push_codes (acc codes : list string) : list string :=
  fold_left (fun acc code => if JS.includes acc code then acc else acc ++ [code])
            codes acc.

(** The reducer of [parseCountries]. *)
Definition collect_codes (acc : list string) (curr : string) : list string :=
  match region2codes curr with
  | [] => acc ++ [curr]
  | codes => push_codes acc codes
  end.

Definition candidate_codes (s : string) : list string :=
  fold_left collect_codes (JS.split ";" s) [].

Definition valid_code (code : string) : bool :=
  JS.truthy code && JS.truthy_value (code2name code).

Definition to_country (code : string) : Country :=
  {| country_code := JS.toLowerCase code; country_name := code2name code |}.

Definition parseCountries (s : string) : list Country :=
  map to_country (List.filter valid_code (candidate_codes s)).

Definition to_language (name : string) : option Language :=
  let code := if JS.truthy name then language2code name else JS.undefined in
  if JS.truthy_value code
  then Some {| language_code := code; language_name := name |}
  else None.

Definition parseLanguages (s : string) : list Language :=
  omap to_language (JS.split ";" s).

Definition parseCategory (s : string) : string :=
  match List.find (fun c => String.eqb (category_id c) (JS.toLowerCase s)) categories with
  | Some c => category_name c
  | None => EmptyString
  end.

Definition parseData (data : Item) : Channel :=
  let title := parseTitle (item_name data) in
  {| tvg := item_tvg data;
     http := item_http data;
     url := item_url data;
     logo := tvg_logo (item_tvg data);
     name := channelName title;
     status := streamStatus title;
     resolution := streamResolution title;
     countries := parseCountries (tvg_country (item_tvg data));
     languages := parseLanguages (tvg_language (item_tvg data));
     category := parseCategory (item_group_title data) |}.

(** The country inferred from the file name of the playlist. *)
Definition fallback_countries (sourceUrl : string) : list Country :=
  let filename := getBasename sourceUrl in
  let countryName := code2name filename in
  if JS.truthy_value countryName
  then [{| country_code := JS.toLowerCase filename; country_name := countryName |}]
  else [].

(** [new Channel({ data, header, sourceUrl })] *)
Definition newChannel (data : Item) (hdr : Header) (sourceUrl : string) : Channel :=
  let c := parseData data in
  let c :=
    match countries c with
    | [] =>
        let cs := fallback_countries sourceUrl in
        let c := set_countries cs c in
        set_tvg (set_tvg_country
                   (JS.join ";" (map (fun c => JS.toUpperCase (country_code c)) cs))
                   (tvg c)) c
    | _ :: _ => c
    end in
  set_tvg (set_tvg_url (or_empty (get_attr "x-tvg-url" (attrs hdr))) (tvg c)) c.

(** [new Playlist({ header, items, url })] *)
Definition newPlaylist (hdr : Header) (items : list Item) (u : string) : Playlist :=
  {| playlist_url := u;
     header := hdr;
     channels :=
       List.filter (fun channel => JS.truthy (url channel))
                   (map (fun item => newChannel item hdr u) items) |}.

End Normalizer.

(** *** Serialization *)

Definition quote : string := String "034" EmptyString.
Definition newline : string := String "010" EmptyString.

(** The getter [tvgUrl]. *)
Definition tvgUrl (c : Channel) : string :=
  if (JS.truthy (tvg_id (tvg c)) || JS.truthy_value (tvg_name (tvg c)))
     && JS.truthy (tvg_url (tvg c))
  then tvg_url (tvg c) else EmptyString.

Definition attribute (key value : string) : string :=
  key +:+ "=" +:+ quote +:+ value +:+ quote.

(** The text [Channel.toString] returns, computed from the channel as it
    is after the first statement of the method. *)
Definition channel_text (short : bool) (c : Channel) : string :=
  let info :=
    "-1 " +:+ attribute "tvg-id" (tvg_id (tvg c))
    +:+ " " +:+ attribute "tvg-name" (JS.show (tvg_name (tvg c)))
    +:+ " " +:+ attribute "tvg-country" (tvg_country (tvg c))
    +:+ " " +:+ attribute "tvg-language" (tvg_language (tvg c))
    +:+ " " +:+ attribute "tvg-logo" (logo c) in
  let info :=
    if short then info else info +:+ " " +:+ attribute "tvg-url" (tvgUrl c) in
  let info := info +:+ " " +:+ attribute "group-title" (category c) +:+ "," +:+ name c in
  let info :=
    match height (resolution c) with
    | Some h => if JS.truthy_number (Some h) then info +:+ " (" +:+ pretty h +:+ "p)" else info
    | None => info
    end in
  let info :=
    match status c with
    | Some st => if JS.truthy st then info +:+ " [" +:+ st +:+ "]" else info
    | None => info
    end in
  let info :=
    if JS.truthy (http_referrer (http c))
    then info +:+ newline +:+ "#EXTVLCOPT:http-referrer=" +:+ http_referrer (http c)
    else info in
  let info :=
    if JS.truthy (http_user_agent (http c))
    then info +:+ newline +:+ "#EXTVLCOPT:http-user-agent=" +:+ http_user_agent (http c)
    else info in
  "#EXTINF:" +:+ info +:+ newline +:+ url c +:+ newline.

(** [Channel.toString(short)]: the text, and the channel as the call
    leaves it (the method assigns [this.tvg.country]). *)
Definition Channel_toString (short : bool) (c : Channel) : string * Channel :=
  let c' := set_tvg (set_tvg_country (JS.toUpperCase (tvg_country (tvg c))) (tvg c)) c in
  (channel_text short c', c').

(** The loop over the channels in [Playlist.toString]. *)
Fixpoint channels_toString (short : bool) (output : string) (cs : list Channel)
  : string * list Channel :=
  match cs with
  | [] => (output, [])
  | c :: cs' =>
      let '(text, c') := Channel_toString short c in
      let '(output', cs'') := channels_toString short (output +:+ text) cs' in
      (output', c' :: cs'')
  end.

Definition header_parts (hdr : Header) : list string :=
  "#EXTM3U" ::
  omap (fun '(key, value) =>
          if JS.truthy value then Some (attribute key value) else None)
       (attrs hdr).

(** [Playlist.toString(short)] *)
Definition Playlist_toString (short : bool) (p : Playlist) : string * Playlist :=
  let output := JS.join " " (header_parts (header p)) +:+ newline in
  let '(output, cs) := channels_toString short output (channels p) in
  (output, set_channels cs p).

(** The parts of the line [Channel.toString] builds: the attributes up to
    the comma, the title after it, and the option lines. *)
Definition extinf_attributes (short : bool) (c : Channel) : string :=
  let info :=
    "-1 " +:+ attribute "tvg-id" (tvg_id (tvg c))
    +:+ " " +:+ attribute "tvg-name" (JS.show (tvg_name (tvg c)))
    +:+ " " +:+ attribute "tvg-country" (tvg_country (tvg c))
    +:+ " " +:+ attribute "tvg-language" (tvg_language (tvg c))
    +:+ " " +:+ attribute "tvg-logo" (logo c) in
  let info :=
    if short then info else info +:+ " " +:+ attribute "tvg-url" (tvgUrl c) in
  info +:+ " " +:+ attribute "group-title" (category c).

Definition resolution_annotation (c : Channel) : string :=
  match height (resolution c) with
  | Some h => if JS.truthy_number (Some h) then " (" +:+ pretty h +:+ "p)" else EmptyString
  | None => EmptyString
  end.

Definition status_annotation (c : Channel) : string :=
  match status c with
  | Some st => if JS.truthy st then " [" +:+ st +:+ "]" else EmptyString
  | None => EmptyString
  end.

Definition title_text (c : Channel) : string :=
  name c +:+ resolution_annotation c +:+ status_annotation c.

Definition http_options (c : Channel) : string :=
  (if JS.truthy (http_referrer (http c))
   then newline +:+ "#EXTVLCOPT:http-referrer=" +:+ http_referrer (http c)
   else EmptyString)
  +:+ (if JS.truthy (http_user_agent (http c))
       then newline +:+ "#EXTVLCOPT:http-user-agent=" +:+ http_user_agent (http c)
       else EmptyString).

(** *** Loading *)

Section Loading.

Variable region2codes : string → list string.
Variable code2name : string → JS.value.
Variable language2code : string → JS.value.
Variable getBasename : string → string.
Variable categories : list Category.

(** What reading a file and parsing it as a playlist deliver: the header
    and the raw entries. *)
Variable readPlaylist : string → Header * list Item.

(** [parser.parsePlaylist(filename)] *)
Definition parsePlaylist (filename : string) : Playlist :=
  let result := readPlaylist filename in
  newPlaylist region2codes code2name language2code getBasename categories
              (fst result) (snd result) filename.

End Loading.

End Parser.

(** ** The formatting script: the stages [main] chains on every playlist *)

Module Format.
Import Parser.

Record Config := { config_epg : bool; config_resolution : bool }.

(** The properties an object literal [{}] inherits from its prototype:
    reading one of them from an object that was used as a dictionary
    yields a function (or, for [__proto__], the prototype itself), not
    [undefined]. *)
Definition object_prototype_keys : list string :=
  [ "constructor"; "hasOwnProperty"; "isPrototypeOf"; "propertyIsEnumerable";
    "toLocaleString"; "toString"; "valueOf"; "__proto__";
    "__defineGetter__"; "__defineSetter__"; "__lookupGetter__"; "__lookupSetter__" ].

Definition inherited (key : string) : bool := JS.includes object_prototype_keys key.

(** *** [addToBuffer] *)

Definition addToBuffer (globalBuffer : list Channel) (playlist : Playlist)
  : list Channel * Playlist :=
  if String.eqb (playlist_url playlist) "channels/unsorted.m3u"
  then (globalBuffer, playlist)
  else (globalBuffer ++ channels playlist, playlist).

(** *** [sortChannels] *)

Definition compare_channels (a b : Channel) : comparison :=
  match String.compare (name a) (name b) with
  | Eq => String.compare (url a) (url b)
  | c => c
  end.

Definition channel_leb (a b : Channel) : bool :=
  match compare_channels a b with
  | Gt => false
  | _ => true
  end.

Fixpoint insert_channel (x : Channel) (l : list Channel) : list Channel :=
  match l with
  | [] => [x]
  | y :: l' => if channel_leb x y then x :: l else y :: insert_channel x l'
  end.

(** Modelled from the spec: [utils.sortBy], called with the fields
    [['name', 'url']], is defined in [utils.js], which is not among the
    sources.  The Sorter is specified as a stable sort by the tuple
    (name, url), both compared as plain strings, case-sensitively and
    independently of the locale. *)
Definition sortBy (l : list Channel) : list Channel :=
  foldr insert_channel [] l.

Definition sortChannels (playlist : Playlist) : Playlist :=
  set_channels (sortBy (channels playlist)) playlist.

(** *** [removeDuplicates] *)

(** [typeof buffer[key] === 'undefined'], for [buffer] an object literal
    whose own properties are the keys of the map. *)
Definition is_undefined (buffer : gmap string bool) (key : string) : bool :=
  match buffer !! key with
  | Some _ => false
  | None => negb (inherited key)
  end.

(** The [filter] callback, threading the dictionary it updates. *)
Fixpoint filter_unseen (buffer : gmap string bool) (l : list Channel) : list Channel :=
  match l with
  | [] => []
  | i :: l' =>
      let result := is_undefined buffer (url i) in
      if result
      then i :: filter_unseen (<[url i := true]> buffer) l'
      else filter_unseen buffer l'
  end.

Definition removeDuplicates (playlist : Playlist) : Playlist :=
  set_channels (filter_unseen ∅ (channels playlist)) playlist.

(** The first stages of [main] for a listed playlist, in their order:
    [addToBuffer], [sortChannels], [removeDuplicates]. *)
Definition sort_then_dedupe (globalBuffer : list Channel) (playlist : Playlist)
  : list Channel * Playlist :=
  let '(globalBuffer, playlist) := addToBuffer globalBuffer playlist in
  (globalBuffer, removeDuplicates (sortChannels playlist)).

(** *** [parseResolution] and [detectResolution] *)

(** The pattern [RESOLUTION=(\d+)x(\d+)] anchored at the start of [s]:
    both captures and the length of the match.  Each greedy [\d+] takes
    every digit: the first must be followed by [x], the second by
    nothing. *)
Definition marker_at (s : string) : option (string * string * nat) :=
  match JS.strip_prefix "RESOLUTION=" s with
  | Some r =>
      match JS.span_digits r with
      | (String d ds, String x r') =>
          match JS.span_digits r' with
          | (String e es, _) =>
              let w := String d ds in
              let h := String e es in
              if Ascii.eqb x "x"
              then Some (w, h, (11 + String.length w + 1 + String.length h)%nat)
              else None
          | _ => None
          end
      | _ => None
      end
  | None => None
  end.

(** [string.matchAll(regex)]: the matches from left to right, the search
    resuming where the previous match ended ([skip] characters of the
    previous match are still to be passed). *)
Fixpoint matchAll_from (skip : nat) (s : string) : list (string * string) :=
  match s with
  | EmptyString => []
  | String _ s' =>
      match skip with
      | S k => matchAll_from k s'
      | O =>
          match marker_at s with
          | Some (w, h, len) => (w, h) :: matchAll_from (Nat.pred len) s'
          | None => matchAll_from 0 s'
          end
      end
  end.

Definition matchAll (s : string) : list (string * string) := matchAll_from 0 s.

Definition to_resolution (m : string * string) : Resolution :=
  {| width := Some (JS.parseInt (fst m)); height := Some (JS.parseInt (snd m)) |}.

(** A height as a number ([null] counts as 0 in a comparison). *)
Definition number (n : option N) : N := default 0 n.

(** The reducer: [prev.height > current.height ? prev : current]. *)
Definition higher (prev current : Resolution) : Resolution :=
  if number (height current) <? number (height prev) then prev else current.

Definition parseResolution (s : string) : option Resolution :=
  match map to_resolution (matchAll s) with
  | [] => None
  | r :: arr => Some (fold_left higher arr r)
  end.

Record Response := { response_status : N; response_data : string }.

(** The body of the loop of [detectResolution], for the response the
    request of the channel's url produced ([None]: the request failed). *)
Definition probe (response : option Response) (channel : Channel) : Channel :=
  match response with
  | Some r =>
      if response_status r =? 200 then
        match JS.strip_prefix "#EXTM3U" (response_data r) with
        | Some _ =>
            match parseResolution (response_data r) with
            | Some res => set_resolution res channel
            | None => channel
            end
        | None => channel
        end
      else channel
  | None => channel
  end.

Definition detectResolution (config : Config) (get : nat → string → option Response)
    (playlist : Playlist) : Playlist :=
  if negb (config_resolution config) then playlist
  else set_channels (imap (fun k channel => probe (get k (url channel)) channel)
                          (channels playlist)) playlist.

(** *** [updateFromEPG] *)

Record EpgName := { epg_value : JS.value; epg_lang : JS.value }.

(** What the merge reads of a value found in the guide index: its
    [name] and [icon] properties, [None] when the property is undefined
    (reading [length] from it throws). *)
Record EpgItem := {
  epg_names : option (list EpgName);
  epg_icons : option (list string)
}.

Record Epg := { epg_url : string; epg_channels : gmap string EpgItem }.

(** What the index yields for a key it only inherits: a function, whose
    [name] is a non-empty string (its characters have neither [value] nor
    [lang]) and which has no [icon]; or, for [__proto__], the prototype,
    which has neither. *)
Definition inherited_item (key : string) : option EpgItem :=
  if String.eqb key "__proto__"
  then Some {| epg_names := None; epg_icons := None |}
  else if inherited key
  then Some {| epg_names :=
                 Some (replicate
                         (String.length (if String.eqb key "constructor" then "Object" else key))
                         {| epg_value := JS.undefined; epg_lang := JS.undefined |});
               epg_icons := None |}
  else None.

(** [epg.channels[id]] *)
Definition epg_get (epg : Epg) (id : string) : option EpgItem :=
  match epg_channels epg !! id with
  | Some item => Some item
  | None => inherited_item id
  end.

(** How the callback of the merge ends for a channel: it returns, or it
    throws; either way the channel object is left as given here. *)
Inductive completion : Type :=
| Returned (channel : Channel)
| Thrown (channel : Channel).

Definition and_then (r : completion) (f : Channel → completion) : completion :=
  match r with
  | Returned channel => f channel
  | Thrown channel => Thrown channel
  end.

Definition channel_of (r : completion) : Channel :=
  match r with
  | Returned channel => channel
  | Thrown channel => channel
  end.

Section Merge.

(** [utils.parseLanguages], defined in [utils.js]. *)
Variable utils_parseLanguages : string → list Language.

Definition fill_name (item : EpgItem) (channel : Channel) : completion :=
  if JS.truthy_value (tvg_name (tvg channel)) then Returned channel
  else match epg_names item with
       | None => Thrown channel
       | Some [] => Returned channel
       | Some (n :: _) =>
           Returned (set_tvg (set_tvg_name (epg_value n) (tvg channel)) channel)
       end.

Definition fill_languages (item : EpgItem) (channel : Channel) : completion :=
  match languages channel with
  | _ :: _ => Returned channel
  | [] =>
      match epg_names item with
      | None => Thrown channel
      | Some [] => Returned channel
      | Some (n :: _) =>
          match epg_lang n with
          | JS.str (String c l) =>
              Returned (set_languages (utils_parseLanguages (String c l)) channel)
          | _ => Returned channel
          end
      end
  end.

Definition fill_logo (item : EpgItem) (channel : Channel) : completion :=
  if JS.truthy (logo channel) then Returned channel
  else match epg_icons item with
       | None => Thrown channel
       | Some [] => Returned channel
       | Some (icon :: _) => Returned (set_logo icon channel)
       end.

(** The callback of [playlist.channels.map]. *)
Definition merge_channel (epg : Epg) (channel : Channel) : completion :=
  if negb (JS.truthy (tvg_id (tvg channel))) then Returned channel
  else match epg_get epg (tvg_id (tvg channel)) with
       | None => Returned channel
       | Some epgItem =>
           and_then (and_then (fill_name epgItem channel) (fill_languages epgItem))
                    (fill_logo epgItem)
       end.

(** The traversal: [None] when a callback throws. *)
Fixpoint merge_channels (epg : Epg) (l : list Channel) : option (list Channel) :=
  match l with
  | [] => Some []
  | channel :: l' =>
      match merge_channel epg channel with
      | Returned channel' => cons channel' <$> merge_channels epg l'
      | Thrown _ => None
      end
  end.

(** How loading the guide ends: the promise is rejected, or resolves
    to a guide or to nothing. *)
Inductive EpgLoad : Type :=
| Rejected
| Resolved (epg : option Epg).

(** [updateFromEPG]; [None] is the [undefined] the [catch] handler
    resolves to. *)
Definition updateFromEPG (config : Config) (parseEPG : string → EpgLoad)
    (playlist : Playlist) : option Playlist :=
  if negb (config_epg config) then Some playlist
  else
    let tvgUrl := get_attr "x-tvg-url" (attrs (header playlist)) in
    if negb (JS.truthy_value tvgUrl) then Some playlist
    else match parseEPG (or_empty tvgUrl) with
         | Rejected => None
         | Resolved None => Some playlist
         | Resolved (Some epg) =>
             match merge_channels epg (channels playlist) with
             | Some l => Some (set_channels l playlist)
             | None => None
             end
         end.

End Merge.

(** *** [parseIndex], [removeUnsortedDuplicates] and [savePlaylist] *)

(** [parseIndex], for the entries [parser.parseIndex] read from the index
    and [utils.filterPlaylists] applied to the configured country lists. *)
Definition parseIndex (filterPlaylists : list Item → list Item) (index : list Item)
  : list Item :=
  List.filter (fun i => negb (String.eqb (item_url i) "channels/unsorted.m3u"))
              (filterPlaylists index).

(** The buffer the loop of [main] has accumulated once every listed
    playlist went through [addToBuffer].  The buffer is only ever read for
    the urls of its channels, which no stage assigns. *)
Definition buffer_listed (loadPlaylist : string → Playlist) (playlists : list Item)
  : list Channel :=
  fold_left (fun globalBuffer playlist =>
               fst (addToBuffer globalBuffer (loadPlaylist (item_url playlist))))
            playlists [].

Definition removeUnsortedDuplicates (globalBuffer : list Channel) (playlist : Playlist)
  : Playlist :=
  let urls := map url globalBuffer in
  let channels' :=
    List.filter (fun i => negb (JS.includes urls (url i))) (channels playlist) in
  if Nat.eqb (List.length channels') (List.length (channels playlist)) then playlist
  else set_channels channels' playlist.

(** [savePlaylist], for the text [original] the file of the playlist holds:
    the result, what is written ([None]: nothing), and the playlist as the
    serialization leaves it. *)
Definition savePlaylist (original : string) (playlist : Playlist)
  : bool * option (string * string) * Playlist :=
  let '(output, playlist') := Playlist_toString true playlist in
  if String.eqb original output
  then (false, None, playlist')
  else (true, Some (playlist_url playlist, output), playlist').

(** The three properties the merge may write, compared before and after:
    one that was populated is the same afterwards. *)
Definition populated_kept (before after : Channel) : Prop :=
  (JS.truthy_value (tvg_name (tvg before)) = true →
   tvg_name (tvg after) = tvg_name (tvg before))
  ∧ (languages before ≠ [] → languages after = languages before)
  ∧ (JS.truthy (logo before) = true → logo after = logo before).

End Format.

(** ** Sample data *)

Module Sample.
Import Parser Format.

(** A master manifest declaring two variants. *)
Definition manifest : string :=
  "#EXTM3U" +:+ newline
  +:+ "#EXT-X-STREAM-INF:BANDWIDTH=2800000,RESOLUTION=1280x720" +:+ newline
  +:+ "mid/index.m3u8" +:+ newline
  +:+ "#EXT-X-STREAM-INF:BANDWIDTH=5000000,RESOLUTION=1920x1080" +:+ newline
  +:+ "high/index.m3u8" +:+ newline.

(** A master manifest whose two variants have the same height. *)
Definition manifest_tie : string :=
  "#EXTM3U" +:+ newline
  +:+ "#EXT-X-STREAM-INF:BANDWIDTH=2800000,RESOLUTION=1280x720" +:+ newline
  +:+ "wide/index.m3u8" +:+ newline
  +:+ "#EXT-X-STREAM-INF:BANDWIDTH=2000000,RESOLUTION=960x720" +:+ newline
  +:+ "narrow/index.m3u8" +:+ newline.

(** Example lookup tables, standing for those of [utils.js]. *)
Definition region2codes (region : string) : list string :=
  if String.eqb (JS.toUpperCase region) "NORD" then ["DK"; "NO"; "SE"] else [].

Definition code2name (code : string) : JS.value :=
  get_attr (JS.toUpperCase code)
    [ ("UK", "United Kingdom"); ("US", "United States"); ("DK", "Denmark");
      ("NO", "Norway"); ("SE", "Sweden") ].

Definition language2code (name : string) : JS.value :=
  get_attr name [ ("English", "eng"); ("Danish", "dan") ].

(** The file name without its directories and its extension. *)
Definition getBasename (path : string) : string :=
  default EmptyString (head (JS.split "." (default EmptyString (last (JS.split "/" path))))).

Definition categories : list Category :=
  [ {| category_id := "news"; category_name := "News" |};
    {| category_id := "sport"; category_name := "Sport" |} ].

Definition utils_parseLanguages (s : string) : list Language :=
  parseLanguages language2code s.

Definition no_http : Http :=
  {| http_referrer := EmptyString; http_user_agent := EmptyString |}.

(** A raw entry with the given title, declared country and stream url. *)
Definition item (title country stream : string) : Item :=
  {| item_name := title;
     item_tvg := {| tvg_id := "BBCOne.uk"; tvg_name := JS.str "BBC One";
                    tvg_country := country; tvg_language := "English";
                    tvg_logo := EmptyString; tvg_url := EmptyString |};
     item_group_title := "News";
     item_http := no_http;
     item_url := stream |}.

Definition hdr : Header := {| attrs := [("x-tvg-url", "http://epg.example/guide.xml")] |}.

Definition channel (title country stream : string) : Channel :=
  newChannel region2codes code2name language2code getBasename categories
             (item title country stream) hdr "channels/uk.m3u".

(** Two entries of one stream under different names, the later-sorting
    name first; and an entry whose url is the name of an inherited
    property. *)
Definition two_names : Playlist :=
  {| playlist_url := "channels/uk.m3u";
     header := hdr;
     channels := [ channel "BBC Two" "UK" "http://example.org/one.m3u8";
                   channel "BBC One" "UK" "http://example.org/one.m3u8" ] |}.

Definition odd_url : Playlist :=
  {| playlist_url := "channels/uk.m3u";
     header := hdr;
     channels := [ channel "BBC One" "UK" "http://example.org/one.m3u8";
                   channel "BBC Two" "UK" "constructor" ] |}.

(** A guide with one entry, and a channel with a name and a language but
    no logo. *)
Definition guide : Epg :=
  {| epg_url := "http://epg.example/guide.xml";
     epg_channels :=
       {[ "BBCOne.uk" :=
            {| epg_names := Some [ {| epg_value := JS.str "BBC 1"; epg_lang := JS.str "Danish" |} ];
               epg_icons := Some [ "http://epg.example/one.png" ] |} ]} |}.

Definition bbc_one : Channel :=
  channel "BBC One [HD] (1080P)" "uk" "http://example.org/one.m3u8".

Definition config_all : Config := {| config_epg := true; config_resolution := true |}.

(** The playlist of the one raw entry with the given title, and a title
    with two spaces after its annotation, and one with a status of three
    words. *)
Definition single (title : string) : Playlist :=
  newPlaylist region2codes code2name language2code getBasename categories
              hdr [ item title "UK" "http://example.org/one.m3u8" ] "channels/uk.m3u".

Definition spaced : Channel := channel "[HD]  A" "UK" "http://example.org/one.m3u8".

Definition wordy : Channel :=
  channel "X [Geo blocked now]" "UK" "http://example.org/one.m3u8".

(** The channels normalized from the entries read back from the texts of
    the two channels above: the attributes are the ones printed, the title
    is the text printed after the comma. *)
Definition spaced_again : Channel :=
  channel (title_text spaced) "UK" "http://example.org/one.m3u8".

Definition wordy_again : Channel :=
  channel (title_text wordy) "UK" "http://example.org/one.m3u8".

(** A channel whose declared country has a second token spelt with a
    lower-case e with acute accent (U+00E9). *)
Definition accented : Channel :=
  channel "BBC One" ("uk;" +:+ String "233" EmptyString) "http://example.org/one.m3u8".

(** A playlist that declares the guide and has the channel above, and how
    loading that guide ends. *)
Definition guided : Playlist :=
  {| playlist_url := "channels/uk.m3u"; header := hdr; channels := [bbc_one] |}.

Definition guide_loaded (u : string) : EpgLoad := Resolved (Some guide).

(** The playlist above once its channel went through the merge. *)
Definition guided_merged : Playlist :=
  {| playlist_url := "channels/uk.m3u";
     header := hdr;
     channels := [ channel_of (merge_channel utils_parseLanguages guide bbc_one) ] |}.

(** A channel without a logo whose guide identifier is the name of an
    inherited property. *)
Definition odd_id : Channel :=
  set_tvg {| tvg_id := "toString"; tvg_name := JS.str "BBC One";
             tvg_country := "UK"; tvg_language := "English";
             tvg_logo := EmptyString; tvg_url := EmptyString |} bbc_one.

End Sample.

(** * Properties *)

(** ** Strings *)

Section StringFacts.

Lemma append_nil (t : string) : EmptyString +:+ t = t.
Proof. reflexivity. Qed.

Lemma append_cons (c : ascii) (s t : string) :
  String c s +:+ t = String c (s +:+ t).
Proof. reflexivity. Qed.

Lemma append_assoc (s t u : string) : (s +:+ t) +:+ u = s +:+ t +:+ u.
Proof.
  induction s as [|c s IH]; [reflexivity|].
  rewrite !append_cons, IH. reflexivity.
Qed.

Lemma contains_append (c : ascii) (s t : string) :
  JS.contains c (s +:+ t) = JS.contains c s || JS.contains c t.
Proof.
  induction s as [|a s IH]; [reflexivity|].
  rewrite append_cons. simpl. rewrite IH. apply orb_assoc.
Qed.

Lemma span_digits_append (s t : string) (c : ascii) :
  JS.is_digit c = false →
  JS.span_digits (s +:+ String c t) =
  (fst (JS.span_digits s), snd (JS.span_digits s) +:+ String c t).
Proof.
  intros Hc. induction s as [|a s IH].
  - rewrite append_nil. simpl. rewrite Hc. reflexivity.
  - rewrite append_cons. simpl. destruct (JS.is_digit a); [|reflexivity].
    rewrite IH. destruct (JS.span_digits s). reflexivity.
Qed.

Lemma line_prefix_append (s t : string) :
  JS.contains "010" s = false → JS.contains "013" s = false →
  JS.line_prefix (s +:+ t) = s +:+ JS.line_prefix t.
Proof.
  induction s as [|a s IH]; intros Hn Hr; [reflexivity|].
  simpl in Hn, Hr. apply orb_false_elim in Hn as [Hn1 Hn2].
  apply orb_false_elim in Hr as [Hr1 Hr2].
  rewrite append_cons. simpl.
  assert (JS.is_line_terminator a = false) as ->.
  { revert Hn1 Hr1. destruct a as [[] [] [] [] [] [] [] []]; done. }
  rewrite IH by done. reflexivity.
Qed.

Lemma contains_line_prefix (c : ascii) (s : string) :
  JS.contains c s = false → JS.contains c (JS.line_prefix s) = false.
Proof.
  induction s as [|a s IH]; [done|]. simpl. intros [H1 H2]%orb_false_elim.
  destruct (JS.is_line_terminator a); [done|]. simpl. rewrite H1. auto.
Qed.

Lemma before_last_absent (c : ascii) (s : string) :
  JS.contains c s = false → JS.before_last c s = None.
Proof.
  induction s as [|a s IH]; [done|]. simpl. intros [H1 H2]%orb_false_elim.
  rewrite IH, H1 by done. reflexivity.
Qed.

Lemma before_last_closing (c : ascii) (s t : string) :
  JS.contains c s = false → JS.contains c t = false →
  JS.before_last c (s +:+ String c t) = Some s.
Proof.
  intros Hs Ht. induction s as [|a s IH].
  - rewrite append_nil. simpl. rewrite before_last_absent by done.
    rewrite Ascii.eqb_refl. reflexivity.
  - simpl in Hs. apply orb_false_elim in Hs as [_ Hs].
    rewrite append_cons. simpl. rewrite IH by done. reflexivity.
Qed.

Lemma map_chars_idemp (f : ascii → ascii) (s : string) :
  (∀ c, f (f c) = f c) → JS.map_chars f (JS.map_chars f s) = JS.map_chars f s.
Proof. intros Hf. induction s as [|a s IH]; simpl; [done|]. by rewrite Hf, IH. Qed.

Lemma upper_char_lower (c : ascii) : JS.is_lower c = true → JS.upper_char c ≠ c.
Proof. destruct c as [[] [] [] [] [] [] [] []]; done. Qed.

Lemma upper_char_idemp (c : ascii) : JS.upper_char (JS.upper_char c) = JS.upper_char c.
Proof. destruct c as [[] [] [] [] [] [] [] []]; reflexivity. Qed.

Lemma toUpperCase_idemp (s : string) :
  JS.toUpperCase (JS.toUpperCase s) = JS.toUpperCase s.
Proof. apply map_chars_idemp, upper_char_idemp. Qed.

End StringFacts.

(** ** The title parser *)

Section TitleFacts.
Import Parser.

Lemma resolution_at_separator (a b : string) :
  resolution_at a = None → resolution_at (a +:+ String " " b) = None.
Proof.
  destruct a as [|c r]; [done|]. rewrite append_cons. simpl.
  destruct (Ascii.eqb c "("); [|done].
  rewrite span_digits_append by done.
  destruct (JS.span_digits r) as [ds r']. simpl.
  destruct ds as [|d ds]; [done|].
  destruct r' as [|p [|q r']]; simpl.
  - by destruct b.
  - intros _. by rewrite andb_false_r.
  - done.
Qed.

Lemma resolution_match_separator (a b : string) :
  resolution_match a = None → resolution_match b = None →
  resolution_match (a +:+ String " " b) = None.
Proof.
  intros Ha Hb. induction a as [|c a IH].
  - rewrite append_nil. simpl. exact Hb.
  - cbn [resolution_match] in Ha.
    destruct (resolution_at (String c a)) eqn:Hat; [done|].
    rewrite append_cons. cbn [resolution_match].
    change (String c (a +:+ String " " b)) with (String c a +:+ String " " b).
    rewrite resolution_at_separator by done. auto.
Qed.

Lemma resolution_test_join (l : list string) :
  Forall (fun t => resolution_test t = false) l →
  resolution_test (JS.join " " l) = false.
Proof.
  unfold resolution_test. induction 1 as [|t l Ht Hl IH]; [done|].
  destruct l as [|t' l]; [exact Ht|].
  change (JS.join " " (t :: t' :: l)) with (t +:+ String " " (JS.join " " (t' :: l))).
  rewrite resolution_match_separator; [done| |].
  - destruct (resolution_match t); done.
  - destruct (resolution_match (JS.join " " (t' :: l))); done.
Qed.

Lemma bracket_test_join (l : list string) :
  Forall (fun t => bracket_test t = false) l →
  bracket_test (JS.join " " l) = false.
Proof.
  unfold bracket_test. induction 1 as [|t l Ht Hl IH]; [done|].
  destruct l as [|t' l]; [exact Ht|].
  change (JS.join " " (t :: t' :: l)) with (t +:+ String " " (JS.join " " (t' :: l))).
  rewrite !contains_append. apply orb_false_elim in Ht as [-> ->].
  apply orb_false_elim in IH as [H1 H2].
  cbn [JS.contains]. rewrite H1, H2. reflexivity.
Qed.

Lemma title_tokens_kept (title t : string) :
  In t (title_tokens title) → bracket_test t = false ∧ resolution_test t = false.
Proof.
  unfold title_tokens. intros [_ Hk]%filter_In. unfold keep_token in Hk.
  apply andb_prop in Hk as [H1 H2].
  split; [apply negb_true_iff, H1 | apply negb_true_iff, H2].
Qed.

Lemma status_match_skip (pre s : string) :
  JS.contains "[" pre = false →
  status_match (pre +:+ s) = status_match s.
Proof.
  induction pre as [|c pre IH]; [done|].
  simpl. intros [Hc Hpre]%orb_false_elim. rewrite Hc. auto.
Qed.

Lemma status_match_single (pre mid post : string) :
  JS.contains "[" pre = false →
  JS.contains "]" mid = false →
  JS.contains "010" mid = false → JS.contains "013" mid = false →
  JS.contains "]" post = false →
  status_match (pre +:+ String "[" (mid +:+ String "]" post)) = Some mid.
Proof.
  intros Hpre Hmid Hn Hr Hpost. rewrite status_match_skip by done.
  cbn [status_match status_at]. rewrite Ascii.eqb_refl.
  rewrite line_prefix_append by done.
  cbn [JS.line_prefix]. change (JS.is_line_terminator "]") with false. cbn iota.
  rewrite before_last_closing; [done..|].
  by apply contains_line_prefix.
Qed.

Lemma status_match_none (title : string) :
  JS.contains "[" title = false → status_match title = None.
Proof.
  induction title as [|c s IH]; [done|].
  simpl. intros [Hc Hs]%orb_false_elim. rewrite Hc. auto.
Qed.

End TitleFacts.

(** C1, as amended.  For every raw title: the display name is made of the
    space-separated tokens of the trimmed title (each trimmed) that contain
    neither a bracket nor a parenthesised digits-P annotation, rejoined with
    single spaces, so that no bracket and no such annotation is left in it;
    the width is never set; the status is absent when the title has no
    opening bracket, and when the title carries one bracket annotation (no
    closing bracket after the one that closes the first opening bracket, and
    no line break inside) the status is the text inside it.  The title
    "BBC One [HD] (1080P)" parses to the name "BBC One", the status "HD" and
    the height 1080. *)
Theorem parseTitle_annotations (title : string) :
  let t := Parser.parseTitle title in
  (∀ tok, In tok (Parser.title_tokens title) ↔
          In tok (map JS.trim (JS.split " " (JS.trim title)))
          ∧ Parser.bracket_test tok = false ∧ Parser.resolution_test tok = false) ∧
  Parser.channelName t = JS.join " " (Parser.title_tokens title) ∧
  Parser.bracket_test (Parser.channelName t) = false ∧
  Parser.resolution_test (Parser.channelName t) = false ∧
  Parser.width (Parser.streamResolution t) = None ∧
  (JS.contains "[" title = false → Parser.streamStatus t = None) ∧
  (∀ pre mid post,
     title = pre +:+ "[" +:+ mid +:+ "]" +:+ post →
     JS.contains "[" pre = false →
     JS.contains "]" mid = false →
     JS.contains "010" mid = false → JS.contains "013" mid = false →
     JS.contains "]" post = false →
     Parser.streamStatus t = Some mid) ∧
  Parser.parseTitle "BBC One [HD] (1080P)" =
    {| Parser.channelName := "BBC One";
       Parser.streamStatus := Some "HD";
       Parser.streamResolution := {| Parser.width := None; Parser.height := Some 1080 |} |}.
Proof.
  cbn zeta. split_and!.
  - intros tok. unfold Parser.title_tokens. rewrite filter_In.
    unfold Parser.keep_token. rewrite andb_true_iff, !negb_true_iff. tauto.
  - reflexivity.
  - apply bracket_test_join, List.Forall_forall.
    intros tok Htok. by apply (title_tokens_kept title).
  - apply resolution_test_join, List.Forall_forall.
    intros tok Htok. by apply (title_tokens_kept title).
  - reflexivity.
  - apply status_match_none.
  - intros pre mid post -> Hpre Hmid Hn Hr Hpost.
    by apply status_match_single.
  - reflexivity.
Qed.

Lemma parseTitle_annotations_witness :
  Parser.streamStatus (Parser.parseTitle "ESPN [Geo-blocked] (720p)") = Some "Geo-blocked".
Proof.
  destruct (parseTitle_annotations "ESPN [Geo-blocked] (720p)")
    as (_ & _ & _ & _ & _ & _ & H & _).
  apply (H "ESPN " "Geo-blocked" " (720p)"); reflexivity.
Defined.

Lemma parseTitle_status_not_first_bracket :
  Parser.streamStatus (Parser.parseTitle "A [HD] [X]") = Some "HD] [X"
  ∧ Parser.streamStatus (Parser.parseTitle "A [HD] [X]") ≠ Some "HD"
  ∧ Parser.channelName (Parser.parseTitle "[HD]  A") = " A"
  ∧ JS.trim (Parser.channelName (Parser.parseTitle "[HD]  A"))
    ≠ Parser.channelName (Parser.parseTitle "[HD]  A").
Proof. split_and!; [reflexivity | discriminate | reflexivity | discriminate]. Qed.

(** ** The resolution prober *)

Section ResolutionFacts.
Import Parser Format.

Lemma number_height_higher (prev current : Resolution) :
  number (height prev) ≤ number (height (higher prev current))
  ∧ number (height current) ≤ number (height (higher prev current)).
Proof.
  unfold higher.
  destruct (N.ltb_spec (number (height current)) (number (height prev))); lia.
Qed.

(** What [reduce] with the reducer [higher] selects: an element no other
    exceeds, and which every later element falls short of. *)
Lemma reduce_higher (arr : list Resolution) (r : Resolution) :
  ∃ l1 m l2,
    r :: arr = l1 ++ m :: l2
    ∧ fold_left higher arr r = m
    ∧ number (height r) ≤ number (height m)
    ∧ Forall (fun x => number (height x) ≤ number (height m)) l1
    ∧ Forall (fun x => number (height x) < number (height m)) l2.
Proof.
  revert r. induction arr as [|x arr IH]; intros r.
  - exists [], r, []. split_and!; auto; lia.
  - cbn [fold_left]. unfold higher at 2.
    destruct (N.ltb_spec (number (height x)) (number (height r))) as [Hlt|Hge].
    + destruct (IH r) as (l1 & m & l2 & Heq & Hm & Hr & H1 & H2).
      destruct l1 as [|y l1]; injection Heq as Hy Harr.
      * exists [], r, (x :: arr). subst m. split_and!; auto; try lia.
        constructor; [lia|]. by rewrite Harr.
      * exists (r :: x :: l1), m, l2. subst y. rewrite Harr.
        apply Forall_cons in H1 as [H3 H4].
        split_and!; [done | by rewrite <- Harr | done | | done].
        constructor; [done|]. constructor; [lia|done].

    + destruct (IH x) as (l1 & m & l2 & Heq & Hm & Hr & H1 & H2).
      exists (r :: l1), m, l2. rewrite Heq. split_and!; auto; try lia.
      constructor; [lia|done].
Qed.

End ResolutionFacts.

(** C7, as amended.  For every probe response body: without a resolution
    marker nothing is selected; with at least one, the selected resolution
    is a declared variant whose height no variant exceeds, and when several
    variants tie on the greatest height the last encountered wins (every
    variant after the selected one is strictly lower).  When the body is a
    nested manifest answered with status 200, that resolution becomes the
    channel's.  A body declaring 1280x720 and then 1920x1080 yields width
    1920 and height 1080. *)
Theorem parseResolution_greatest_height (body : string) :
  let arr := map Format.to_resolution (Format.matchAll body) in
  (arr = [] → Format.parseResolution body = None) ∧
  (arr ≠ [] →
   ∃ l1 r l2,
     arr = l1 ++ r :: l2
     ∧ Format.parseResolution body = Some r
     ∧ Forall (fun x => Format.number (Parser.height x) ≤ Format.number (Parser.height r)) l1
     ∧ Forall (fun x => Format.number (Parser.height x) < Format.number (Parser.height r)) l2
     ∧ ∀ channel,
         JS.strip_prefix "#EXTM3U" body ≠ None →
         Parser.resolution
           (Format.probe (Some {| Format.response_status := 200;
                                  Format.response_data := body |}) channel) = r) ∧
  Format.parseResolution Sample.manifest =
    Some {| Parser.width := Some 1920; Parser.height := Some 1080 |}.
Proof.
  cbn zeta. unfold Format.parseResolution, Format.probe. split_and!.
  - by intros ->.
  - destruct (map Format.to_resolution (Format.matchAll body)) as [|r arr] eqn:Harr; [done|].
    intros _. destruct (reduce_higher arr r) as (l1 & m & l2 & Heq & Hm & _ & H1 & H2).
    exists l1, m, l2. split_and!; [done | by rewrite Hm | done | done |].
    intros channel Hprefix.
    cbn [Format.response_status Format.response_data]. rewrite N.eqb_refl.
    destruct (JS.strip_prefix "#EXTM3U" body); [|done].
    unfold Format.parseResolution. rewrite Harr. exact Hm.
  - vm_compute. reflexivity.
Qed.

Lemma parseResolution_greatest_height_witness :
  ∃ l1 r l2,
    map Format.to_resolution (Format.matchAll Sample.manifest_tie) = l1 ++ r :: l2
    ∧ Format.parseResolution Sample.manifest_tie = Some r
    ∧ Forall (fun x => Format.number (Parser.height x) ≤ Format.number (Parser.height r)) l1
    ∧ Forall (fun x => Format.number (Parser.height x) < Format.number (Parser.height r)) l2.
Proof.
  destruct (parseResolution_greatest_height Sample.manifest_tie) as (_ & H & _).
  destruct H as (l1 & r & l2 & H1 & H2 & H3 & H4 & _); [by vm_compute|].
  exists l1, r, l2. auto.
Defined.

Lemma parseResolution_tie_last_wins :
  map Format.to_resolution (Format.matchAll Sample.manifest_tie) =
    [ {| Parser.width := Some 1280; Parser.height := Some 720 |};
      {| Parser.width := Some 960; Parser.height := Some 720 |} ]
  ∧ Format.parseResolution Sample.manifest_tie =
      Some {| Parser.width := Some 960; Parser.height := Some 720 |}
  ∧ Format.parseResolution Sample.manifest_tie ≠
      Some {| Parser.width := Some 1280; Parser.height := Some 720 |}.
Proof. split_and!; [by vm_compute | by vm_compute | by vm_compute]. Qed.

(** ** The channel normalizer *)

Section NormalizerFacts.
Import Parser.

Variable region2codes : string → list string.
Variable code2name : string → JS.value.
Variable language2code : string → JS.value.
Variable getBasename : string → string.
Variable categories : list Category.

Lemma includes_elem_of (l : list string) (x : string) :
  JS.includes l x = true ↔ x ∈ l.
Proof.
  unfold JS.includes. rewrite existsb_exists, list_elem_of_In. split.
  - intros (y & Hy & ->%String.eqb_eq). done.
  - intros Hx. exists x. by rewrite String.eqb_refl.
Qed.

(** The branch for a region only adds codes that are not listed yet. *)
Lemma push_codes_NoDup (codes acc : list string) :
  NoDup acc → NoDup (push_codes acc codes).
Proof.
  unfold push_codes. revert acc. induction codes as [|code codes IH]; intros acc Hacc; [done|].
  cbn [fold_left]. apply IH.
  destruct (JS.includes acc code) eqn:Hin; [done|].
  apply NoDup_app. split_and!; [done | | apply NoDup_singleton].
  intros x Hx ->%list_elem_of_singleton.
  apply includes_elem_of in Hx. congruence.
Qed.


Lemma url_newChannel (data : Item) (h : Header) (sourceUrl : string) :
  url (newChannel region2codes code2name language2code getBasename categories
                  data h sourceUrl) = item_url data.
Proof.
  unfold newChannel.
  destruct (countries (parseData _ _ _ _ _)); reflexivity.
Qed.


Lemma filter_map_comm {A B : Type} (f : B → bool) (g : A → B) (l : list A) :
  List.filter f (map g l) = map g (List.filter (fun x => f (g x)) l).
Proof.
  induction l as [|x l IH]; [done|]. cbn. destruct (f (g x)); cbn; by rewrite IH.
Qed.

(** C2: the code list can hold a code twice.  A token that is no region is
    pushed as it stands, without the membership test the region branch makes:
    for lookup tables in which [code] is a valid literal code and not a
    region, the declared country [code;code] yields the same country
    twice. *)
Theorem parseCountries_repeated_literal (code : string) :
  region2codes code = [] →
  valid_code code2name code = true →
  JS.contains ";" code = false →
  candidate_codes region2codes (code +:+ ";" +:+ code) = [code; code]
  ∧ parseCountries region2codes code2name (code +:+ ";" +:+ code)
    = [to_country code2name code; to_country code2name code]
  ∧ ¬ NoDup (parseCountries region2codes code2name (code +:+ ";" +:+ code)).
Proof.
  intros Hregion Hvalid Hsep.
  assert (Hsplit : ∀ s, JS.contains ";" s = false → JS.split ";" s = [s]).
  { induction s as [|c s IH]; [done|]. cbn. intros [Hc Hs]%orb_false_elim.
    rewrite Hc, IH by done. reflexivity. }
  assert (Hsplit2 : ∀ s t, JS.contains ";" s = false →
            JS.split ";" (s +:+ String ";" t) = s :: JS.split ";" t).
  { induction s as [|c s IH]; intros t; [done|]. cbn. intros [Hc Hs]%orb_false_elim.
    rewrite append_cons. cbn [JS.split]. rewrite Hc, IH by done. reflexivity. }
  assert (Hcodes : candidate_codes region2codes (code +:+ ";" +:+ code) = [code; code]).
  { unfold candidate_codes. change (";" +:+ code) with (String ";" code).
    rewrite Hsplit2, Hsplit by done. cbn. unfold collect_codes. by rewrite Hregion. }
  assert (Hlist : parseCountries region2codes code2name (code +:+ ";" +:+ code)
                  = [to_country code2name code; to_country code2name code]).
  { unfold parseCountries. rewrite Hcodes. cbn. by rewrite Hvalid. }
  split_and!; [done..|].
  rewrite Hlist. intros Hnd. apply NoDup_cons in Hnd as [Hnotin _].
  apply Hnotin. by left.
Qed.


(** C4.  The channels of a constructed playlist are built from exactly the
    raw entries that have a stream url, in their order: an entry without one
    yields no channel, and no channel of the playlist has an empty url. *)
Theorem newPlaylist_urls (h : Header) (items : list Item) (u : string) :
  let build := fun item =>
    newChannel region2codes code2name language2code getBasename categories item h u in
  let p := newPlaylist region2codes code2name language2code getBasename categories
                       h items u in
  channels p = map build (List.filter (fun item => JS.truthy (item_url item)) items)
  ∧ Forall (fun c => url c ≠ EmptyString) (channels p)
  ∧ ∀ c, In c (channels p) →
         ∃ item, In item items ∧ item_url item ≠ EmptyString ∧ c = build item.
Proof.
  cbn zeta. unfold newPlaylist. cbn [channels].
  assert (Ht : ∀ s, JS.truthy s = true ↔ s ≠ EmptyString).
  { intros [|c s]; cbn; split; done. }
  split_and!.
  - rewrite filter_map_comm. f_equal. apply filter_ext.
    intros item. by rewrite url_newChannel.
  - apply List.Forall_forall. intros c [_ Hc]%filter_In. by apply Ht.
  - intros c [Hin Hc]%filter_In. apply in_map_iff in Hin as (item & <- & Hitem).
    exists item. rewrite url_newChannel in Hc. split_and!; [done| by apply Ht |done].
Qed.

End NormalizerFacts.

Lemma parseCountries_repeated_literal_witness :
  Parser.parseCountries Sample.region2codes Sample.code2name "UK;UK" =
    [ {| Parser.country_code := "uk"; Parser.country_name := JS.str "United Kingdom" |};
      {| Parser.country_code := "uk"; Parser.country_name := JS.str "United Kingdom" |} ].
Proof.
  apply (parseCountries_repeated_literal Sample.region2codes Sample.code2name "UK");
    reflexivity.
Defined.



(** ** The sorter *)

Section SortFacts.
Import Parser Format.

Lemma string_compare_refl (s : string) : String.compare s s = Eq.
Proof.
  induction s as [|c s IH]; [done|]. cbn.
  unfold Ascii.compare. by rewrite N.compare_refl.
Qed.

Lemma string_compare_not_Gt (s t : string) :
  String.compare s t ≠ Gt ↔ (s ≤ t)%string.
Proof.
  unfold String.le, String.leb. destruct (String.compare s t); cbn; split; done.
Qed.

Lemma string_compare_Lt_trans (s t u : string) :
  String.compare s t = Lt → String.compare t u = Lt → String.compare s u = Lt.
Proof.
  intros Hst Htu.
  assert (Hle : (s ≤ u)%string).
  { transitivity t; apply string_compare_not_Gt; congruence. }
  apply string_compare_not_Gt in Hle.
  destruct (String.compare s u) eqn:Hsu; [|done|done].
  apply String.compare_eq_iff in Hsu as ->.
  rewrite String.compare_antisym, Htu in Hst. done.
Qed.

Lemma channel_leb_refl (a : Channel) : channel_leb a a = true.
Proof. unfold channel_leb, compare_channels. by rewrite !string_compare_refl. Qed.

Lemma channel_leb_total (a b : Channel) :
  channel_leb a b = false → channel_leb b a = true.
Proof.
  unfold channel_leb, compare_channels.
  rewrite (String.compare_antisym (name a) (name b)),
          (String.compare_antisym (url a) (url b)).
  destruct (String.compare (name b) (name a)); cbn; [|done..].
  by destruct (String.compare (url b) (url a)).
Qed.

Lemma channel_leb_trans (a b c : Channel) :
  channel_leb a b = true → channel_leb b c = true → channel_leb a c = true.
Proof.
  unfold channel_leb, compare_channels. intros Hab Hbc.
  destruct (String.compare (name a) (name b)) eqn:Hn1; [| |done].
  - apply String.compare_eq_iff in Hn1. rewrite Hn1.
    destruct (String.compare (name b) (name c)) eqn:Hn2; [|done|done].
    assert (Hu : String.compare (url a) (url c) ≠ Gt).
    { apply string_compare_not_Gt. transitivity (url b); apply string_compare_not_Gt.
      - by destruct (String.compare (url a) (url b)).
      - by destruct (String.compare (url b) (url c)). }
    by destruct (String.compare (url a) (url c)).
  - destruct (String.compare (name b) (name c)) eqn:Hn2; [| |done].
    + apply String.compare_eq_iff in Hn2. by rewrite <- Hn2, Hn1.
    + by rewrite (string_compare_Lt_trans _ _ _ Hn1 Hn2).
Qed.

Lemma insert_channel_perm (x : Channel) (l : list Channel) :
  Permutation (insert_channel x l) (x :: l).
Proof.
  induction l as [|y l IH]; [done|]. cbn.
  destruct (channel_leb x y); [done|].
  rewrite IH. apply perm_swap.
Qed.

Lemma sortBy_perm (l : list Channel) : Permutation (sortBy l) l.
Proof.
  induction l as [|x l IH]; [done|]. cbn.
  rewrite insert_channel_perm. by constructor.
Qed.

Lemma insert_channel_sorted (x : Channel) (l : list Channel) :
  StronglySorted (fun a b => channel_leb a b = true) l →
  StronglySorted (fun a b => channel_leb a b = true) (insert_channel x l).
Proof.
  induction 1 as [|y l Hl IH Hy]; cbn.
  - repeat constructor.
  - destruct (channel_leb x y) eqn:Hxy.
    + constructor; [by constructor|]. constructor; [done|].
      eapply Forall_impl; [exact Hy|]. intros z Hz. by eapply channel_leb_trans.
    + constructor; [done|].
      rewrite insert_channel_perm. constructor; [|done].
      by apply channel_leb_total.
Qed.

Lemma sortBy_sorted (l : list Channel) :
  StronglySorted (fun a b => channel_leb a b = true) (sortBy l).
Proof.
  induction l as [|x l IH]; cbn; [constructor|]. by apply insert_channel_sorted.
Qed.

(** In a sorted list, the first entry of a url is no later in the order
    than any entry of that url. *)
Lemma sorted_first_of_url (l : list Channel) (u : string) (c : Channel) (rest : list Channel) :
  StronglySorted (fun a b => channel_leb a b = true) l →
  List.filter (fun x => String.eqb (url x) u) l = c :: rest →
  ∀ x, In x l → url x = u → channel_leb c x = true.
Proof.
  induction 1 as [|y l Hl IH Hy]; [done|]. cbn.
  destruct (String.eqb_spec (url y) u) as [Hu|Hu].
  - intros [= <- _] x [<-|Hx] _; [apply channel_leb_refl|].
    rewrite List.Forall_forall in Hy. by apply Hy.
  - intros Hf x [<-|Hx] Hxu; [done|]. by apply IH.
Qed.

End SortFacts.

(** ** The deduplicator *)

Section DedupeFacts.
Import Parser Format.

Lemma is_undefined_insert (buffer : gmap string bool) (k u : string) :
  is_undefined (<[k := true]> buffer) u =
  if String.eqb k u then false else is_undefined buffer u.
Proof.
  unfold is_undefined. destruct (String.eqb_spec k u) as [->|Hne].
  - by rewrite lookup_insert_eq.
  - by rewrite lookup_insert_ne.
Qed.

(** Per url, the filter keeps the first entry when the url is not yet a
    property of the dictionary, and nothing otherwise. *)
Lemma filter_unseen_url (l : list Channel) (buffer : gmap string bool) (u : string) :
  List.filter (fun x => String.eqb (url x) u) (filter_unseen buffer l) =
  if is_undefined buffer u
  then take 1 (List.filter (fun x => String.eqb (url x) u) l)
  else [].
Proof.
  revert buffer. induction l as [|i l IH]; intros buffer.
  - by destruct (is_undefined buffer u).
  - cbn. destruct (is_undefined buffer (url i)) eqn:Hi; cbn;
      destruct (String.eqb_spec (url i) u) as [Hu|Hu].
    + rewrite IH, is_undefined_insert. subst u.
      by rewrite String.eqb_refl, Hi.
    + rewrite IH, is_undefined_insert.
      by destruct (String.eqb_spec (url i) u).
    + rewrite IH. subst u. by rewrite Hi.
    + by rewrite IH.
Qed.

Lemma filter_unseen_In (l : list Channel) (buffer : gmap string bool) (c : Channel) :
  In c (filter_unseen buffer l) → In c l.
Proof.
  revert buffer. induction l as [|i l IH]; intros buffer; [done|]. cbn.
  destruct (is_undefined buffer (url i)); cbn; intros H.
  - destruct H as [->|H]; eauto.
  - eauto.
Qed.

(** Filtering a second time, from the same dictionary, changes nothing. *)
Lemma filter_unseen_idemp (l : list Channel) (buffer : gmap string bool) :
  filter_unseen buffer (filter_unseen buffer l) = filter_unseen buffer l.
Proof.
  revert buffer. induction l as [|i l IH]; intros buffer; [done|]. cbn.
  destruct (is_undefined buffer (url i)) eqn:Hi; [|done].
  cbn. rewrite Hi. by rewrite IH.
Qed.

Lemma removeDuplicates_idemp (playlist : Playlist) :
  removeDuplicates (removeDuplicates playlist) = removeDuplicates playlist.
Proof.
  unfold removeDuplicates, set_channels. cbn. by rewrite filter_unseen_idemp.
Qed.

(** An entry whose url names an inherited property is never kept. *)
Lemma filter_unseen_inherited (l : list Channel) (buffer : gmap string bool) (c : Channel) :
  inherited (url c) = true → ¬ In c (filter_unseen buffer l).
Proof.
  intros Hc Hin.
  assert (Hf : In c (List.filter (fun x => String.eqb (url x) (url c))
                                 (filter_unseen buffer l))).
  { apply filter_In. split; [done|]. apply String.eqb_refl. }
  rewrite filter_unseen_url in Hf. unfold is_undefined in Hf. rewrite Hc in Hf.
  by destruct (buffer !! url c).
Qed.

End DedupeFacts.

(** C5: on the code, a first-seen channel is not always kept.  The
    dictionary of seen urls is an object literal, so a url that names a
    property every object inherits is never [undefined] in it: the only
    channel of the url [constructor] is removed, although no other channel
    has that url. *)
Theorem removeDuplicates_drops_inherited_url :
  Parser.channels (Format.removeDuplicates Sample.odd_url) =
    [ Sample.channel "BBC One" "UK" "http://example.org/one.m3u8" ]
  ∧ List.filter (fun x => String.eqb (Parser.url x) "constructor")
                (Parser.channels Sample.odd_url) =
    [ Sample.channel "BBC Two" "UK" "constructor" ]
  ∧ List.filter (fun x => String.eqb (Parser.url x) "constructor")
                (Parser.channels (Format.removeDuplicates Sample.odd_url)) = [].
Proof. split_and!; by vm_compute. Qed.

(** C6, as amended.  Of two entries with the same url and different names,
    the one whose name sorts later never survives sorting followed by
    deduplication, whichever of the two came first in the playlist; when the
    url is not the name of an inherited property, exactly one entry of that
    url survives, and it is the one that comes first in the order of (name,
    url) among all the entries of that url. *)
Theorem sort_then_dedupe_keeps_least
    (globalBuffer : list Parser.Channel) (playlist : Parser.Playlist)
    (a b : Parser.Channel) :
  In a (Parser.channels playlist) →
  In b (Parser.channels playlist) →
  Parser.url a = Parser.url b →
  String.compare (Parser.name a) (Parser.name b) = Lt →
  let result := Parser.channels (snd (Format.sort_then_dedupe globalBuffer playlist)) in
  ¬ In b result
  ∧ (Format.inherited (Parser.url a) = false →
     ∃ c, List.filter (fun x => String.eqb (Parser.url x) (Parser.url a)) result = [c]
          ∧ In c (Parser.channels playlist)
          ∧ ∀ x, In x (Parser.channels playlist) →
                 Parser.url x = Parser.url a → Format.channel_leb c x = true).
Proof.
  intros Ha Hb Hurl Hlt.
  assert (Hres : Parser.channels (snd (Format.sort_then_dedupe globalBuffer playlist))
                 = Format.filter_unseen ∅ (Format.sortBy (Parser.channels playlist))).
  { unfold Format.sort_then_dedupe, Format.addToBuffer.
    by destruct (String.eqb _ _). }
  cbn zeta. rewrite Hres. clear Hres.
  set (sorted := Format.sortBy (Parser.channels playlist)).
  assert (Hperm : ∀ x, In x sorted ↔ In x (Parser.channels playlist)).
  { intros x. split; apply Permutation_in;
      [apply sortBy_perm | symmetry; apply sortBy_perm]. }
  assert (Hsorted := sortBy_sorted (Parser.channels playlist)). fold sorted in Hsorted.
  pose proof (filter_unseen_url sorted ∅ (Parser.url a)) as Hf.
  assert (Hfirst : ∀ c rest,
            List.filter (fun x => String.eqb (Parser.url x) (Parser.url a)) sorted = c :: rest →
            ∀ x, In x (Parser.channels playlist) → Parser.url x = Parser.url a →
                 Format.channel_leb c x = true).
  { intros c rest Hc x Hx Hxu. eapply sorted_first_of_url; eauto. by apply Hperm. }
  split.
  - intros Hin.
    assert (Hbf : In b (List.filter (fun x => String.eqb (Parser.url x) (Parser.url a))
                                    (Format.filter_unseen ∅ sorted))).
    { apply filter_In. split; [done|]. rewrite Hurl. apply String.eqb_refl. }
    rewrite Hf in Hbf. destruct (Format.is_undefined ∅ (Parser.url a)); [|done].
    destruct (List.filter _ sorted) as [|c rest] eqn:Hc; [done|].
    cbn in Hbf. destruct Hbf as [->|[]].
    specialize (Hfirst b rest eq_refl a Ha eq_refl).
    unfold Format.channel_leb, Format.compare_channels in Hfirst.
    rewrite String.compare_antisym, Hlt in Hfirst. done.
  - intros Hinh. rewrite Hf. unfold Format.is_undefined.
    rewrite lookup_empty, Hinh. cbn.
    destruct (List.filter _ sorted) as [|c rest] eqn:Hc.
    + assert (Hin : In a (List.filter (fun x => String.eqb (Parser.url x) (Parser.url a)) sorted)).
      { apply filter_In. split; [by apply Hperm | apply String.eqb_refl]. }
      by rewrite Hc in Hin.
    + exists c. split_and!; [done | | by apply (Hfirst c rest)].
      apply Hperm. eapply (proj1 (filter_In _ _ _)). rewrite Hc. by left.
Qed.

Lemma sort_then_dedupe_keeps_least_witness :
  ¬ In (Sample.channel "BBC Two" "UK" "http://example.org/one.m3u8")
       (Parser.channels (snd (Format.sort_then_dedupe [] Sample.two_names))).
Proof.
  apply (sort_then_dedupe_keeps_least [] Sample.two_names
           (Sample.channel "BBC One" "UK" "http://example.org/one.m3u8")
           (Sample.channel "BBC Two" "UK" "http://example.org/one.m3u8")).
  - right. left. reflexivity.
  - left. reflexivity.
  - reflexivity.
  - reflexivity.
Defined.

Lemma sort_then_dedupe_drops_first_encountered :
  Parser.channels Sample.two_names =
    [ Sample.channel "BBC Two" "UK" "http://example.org/one.m3u8";
      Sample.channel "BBC One" "UK" "http://example.org/one.m3u8" ]
  ∧ Parser.channels (snd (Format.sort_then_dedupe [] Sample.two_names)) =
    [ Sample.channel "BBC One" "UK" "http://example.org/one.m3u8" ].
Proof. split; by vm_compute. Qed.

(** ** The guide merger *)

Section MergeFacts.
Import Parser Format.

Variable utils_parseLanguages : string → list Language.

Lemma populated_kept_refl (c : Channel) : populated_kept c c.
Proof. by repeat split. Qed.

Ltac case_matches :=
  repeat match goal with
         | |- context [match ?x with _ => _ end] =>
             destruct x eqn:?; cbn in *; try done; try congruence
         end.

(** The callback only assigns [tvg.name], [languages] and [logo]. *)
Lemma merge_channel_frame (epg : Epg) (channel : Channel) :
  let merged := channel_of (merge_channel utils_parseLanguages epg channel) in
  set_logo (logo channel)
    (set_languages (languages channel)
       (set_tvg (set_tvg_name (tvg_name (tvg channel)) (tvg merged)) merged)) = channel.
Proof.
  cbn zeta. unfold merge_channel.
  destruct channel as [[] ? ? ? ? ? ? ? ? ?]; cbn.
  destruct (negb _); [done|].
  destruct (epg_get _ _) as [[names icons]|]; [|done].
  unfold fill_name, fill_languages, fill_logo; cbn. case_matches.
Qed.

Lemma merge_channel_kept (epg : Epg) (channel : Channel) :
  populated_kept channel (channel_of (merge_channel utils_parseLanguages epg channel)).
Proof.
  unfold merge_channel.
  destruct (negb _); [apply populated_kept_refl|].
  destruct (epg_get _ _) as [[names icons]|]; [|apply populated_kept_refl].
  destruct channel as [[] ? ? ? ? ? ? ? ? ?].
  unfold populated_kept, fill_name, fill_languages, fill_logo; cbn.
  split_and!; intros H; case_matches.
Qed.

Lemma merge_channels_kept (epg : Epg) (l l' : list Channel) :
  merge_channels utils_parseLanguages epg l = Some l' →
  Forall2 populated_kept l l'.
Proof.
  revert l'. induction l as [|c l IH]; intros l'; cbn.
  - intros [= <-]. constructor.
  - pose proof (merge_channel_kept epg c) as Hc.
    destruct (merge_channel utils_parseLanguages epg c) as [c'|c']; [|done].
    destruct (merge_channels utils_parseLanguages epg l) as [l0|]; [|done].
    intros [= <-]. constructor; [exact Hc | by apply IH].
Qed.

(** C8.  For every channel and every guide, whether the callback of the
    merge returns or throws: a guide name, a language list or a logo that was
    populated before the merge is the same afterwards, and no other property
    of the channel changes.  For a guide entry that has names and icons, each
    of the three properties is decided from its own previous value and the
    entry alone: it is kept when populated and filled from the entry when
    empty.  Whenever the stage yields a playlist, its channels are the given
    ones with their populated properties kept. *)
Theorem updateFromEPG_fills_gaps_only (epg : Epg) (channel : Channel) :
  let merged := channel_of (merge_channel utils_parseLanguages epg channel) in
  populated_kept channel merged
  ∧ set_logo (logo channel)
      (set_languages (languages channel)
         (set_tvg (set_tvg_name (tvg_name (tvg channel)) (tvg merged)) merged)) = channel
  ∧ (∀ names icons,
       JS.truthy (tvg_id (tvg channel)) = true →
       epg_get epg (tvg_id (tvg channel))
         = Some {| epg_names := Some names; epg_icons := Some icons |} →
       merge_channel utils_parseLanguages epg channel = Returned merged
       ∧ tvg_name (tvg merged)
         = (if JS.truthy_value (tvg_name (tvg channel)) then tvg_name (tvg channel)
            else match names with
                 | n :: _ => epg_value n
                 | [] => tvg_name (tvg channel)
                 end)
       ∧ languages merged
         = match languages channel with
           | _ :: _ => languages channel
           | [] => match names with
                   | n :: _ => match epg_lang n with
                               | JS.str (String c l) => utils_parseLanguages (String c l)
                               | _ => []
                               end
                   | [] => []
                   end
           end
       ∧ logo merged
         = (if JS.truthy (logo channel) then logo channel
            else match icons with
                 | icon :: _ => icon
                 | [] => logo channel
                 end))
  ∧ (∀ config parseEPG playlist playlist',
       updateFromEPG utils_parseLanguages config parseEPG playlist = Some playlist' →
       Forall2 populated_kept (channels playlist) (channels playlist')).
Proof.
  cbn zeta. split_and!.
  - apply merge_channel_kept.
  - apply merge_channel_frame.
  - intros names icons Hid Hget. unfold merge_channel. rewrite Hid, Hget.
    destruct channel as [[] ? ? ? ? ? ? ? ? ?].
    unfold fill_name, fill_languages, fill_logo; cbn.
    split_and!; case_matches.
  - intros config parseEPG playlist playlist'. unfold updateFromEPG.
    assert (Hrefl : Forall2 populated_kept (channels playlist) (channels playlist)).
    { apply Forall_Forall2_diag, List.Forall_forall. intros c _. apply populated_kept_refl. }
    destruct (negb (config_epg config)); [by intros [= <-]|].
    destruct (negb (JS.truthy_value _)); [by intros [= <-]|].
    destruct (parseEPG _) as [|[guide|]]; [done| |by intros [= <-]].
    destruct (merge_channels _ _ _) as [l|] eqn:Hl; [|done].
    intros [= <-]. cbn. by eapply merge_channels_kept.
Qed.

End MergeFacts.

Lemma updateFromEPG_fills_gaps_only_witness :
  let merged :=
    Format.channel_of (Format.merge_channel Sample.utils_parseLanguages
                                            Sample.guide Sample.bbc_one) in
  Parser.tvg_name (Parser.tvg merged) = JS.str "BBC One"
  ∧ Parser.languages merged =
      [ {| Parser.language_code := JS.str "eng"; Parser.language_name := "English" |} ]
  ∧ Parser.logo Sample.bbc_one = EmptyString
  ∧ Parser.logo merged = "http://epg.example/one.png".
Proof.
  destruct (updateFromEPG_fills_gaps_only Sample.utils_parseLanguages
              Sample.guide Sample.bbc_one) as ((Hname & Hlang & _) & _ & Hfill & _).
  destruct (Hfill [ {| Format.epg_value := JS.str "BBC 1"; Format.epg_lang := JS.str "Danish" |} ]
                  [ "http://epg.example/one.png" ] eq_refl eq_refl)
    as (_ & _ & _ & Hlogo).
  cbn zeta. split_and!.
  - apply Hname. reflexivity.
  - apply Hlang. discriminate.
  - reflexivity.
  - exact Hlogo.
Defined.


(** ** The serializer *)

Section SerializerFacts.
Import Parser.

Lemma toUpperCase_lower (s : string) :
  JS.some_char JS.is_lower s = true → JS.toUpperCase s ≠ s.
Proof.
  induction s as [|c s IH]; [done|]. cbn.
  destruct (JS.is_lower c) eqn:Hc; cbn.
  - intros _ [= Hup _]. by apply (upper_char_lower c).
  - intros Hs [= _ Hup]. by apply IH.
Qed.

Lemma upper_char_lower_letter (c : ascii) :
  JS.is_lower_letter c = true → JS.upper_char c ≠ c.
Proof. destruct c as [[] [] [] [] [] [] [] []]; done. Qed.

Lemma toUpperCase_lower_letter (s : string) :
  JS.some_char JS.is_lower_letter s = true → JS.toUpperCase s ≠ s.
Proof.
  induction s as [|c s IH]; [done|]. cbn.
  destruct (JS.is_lower_letter c) eqn:Hc; cbn.
  - intros _ [= Hup _]. by apply (upper_char_lower_letter c).
  - intros Hs [= _ Hup]. by apply IH.
Qed.

Lemma toUpperCase_no_lower_letter (s : string) :
  JS.some_char JS.is_lower_letter s = false → JS.toUpperCase s = s.
Proof.
  induction s as [|c s IH]; [done|]. cbn.
  intros [Hc Hs]%orb_false_elim. unfold JS.upper_char. rewrite Hc. f_equal. by apply IH.
Qed.

(** Serializing a channel the call has already left its mark on. *)
Lemma Channel_toString_again (short : bool) (c : Channel) :
  Channel_toString short (snd (Channel_toString short c)) = Channel_toString short c.
Proof.
  unfold Channel_toString. cbn. rewrite toUpperCase_idemp. reflexivity.
Qed.

Lemma channels_toString_again (short : bool) (cs : list Channel) (output : string) :
  channels_toString short output (snd (channels_toString short output cs))
  = channels_toString short output cs.
Proof.
  revert output. induction cs as [|c cs IH]; intros output; [done|].
  cbn [channels_toString].
  destruct (Channel_toString short c) as [text c'] eqn:Hc.
  specialize (IH (output +:+ text)).
  destruct (channels_toString short (output +:+ text) cs) as [output' cs'] eqn:Hcs.
  cbn [snd channels_toString].
  assert (Hagain : Channel_toString short c' = (text, c')).
  { pose proof (Channel_toString_again short c) as H. by rewrite Hc in H. }
  rewrite Hagain. cbn [snd] in IH. by rewrite IH.
Qed.

Lemma Playlist_toString_again (short : bool) (p : Playlist) :
  Playlist_toString short (snd (Playlist_toString short p)) = Playlist_toString short p.
Proof.
  unfold Playlist_toString.
  pose proof (channels_toString_again short (channels p)
                (JS.join " " (header_parts (header p)) +:+ newline)) as H.
  destruct (channels_toString short _ (channels p)) as [output cs] eqn:Hcs.
  cbn [snd set_channels header channels] in *. rewrite H. reflexivity.
Qed.

(** X23.  Serializing a playlist any number of times, each time the
    playlist as the previous serialization left it, produces the text of the
    first serialization. *)
Theorem Playlist_toString_repeatable (short : bool) (p : Playlist) (n : nat) :
  fst (Playlist_toString short
         (Nat.iter n (fun q => snd (Playlist_toString short q)) p))
  = fst (Playlist_toString short p).
Proof.
  induction n as [|n IH]; [done|].
  cbn [Nat.iter nat_rect]. change (nat_rect _ _ _ n) with
    (Nat.iter n (fun q => snd (Playlist_toString short q)) p).
  by rewrite Playlist_toString_again.
Qed.

(** C10.  Serializing a channel is not a pure read: the channel after
    the call differs from the channel before it whenever the declared country
    contained a lower-case letter (a to z, or an accented one of U+00E0 to
    U+00FE).  For a declared country without the three letters whose
    upper-case form lies outside the range, the call leaves the channel with
    the declared country replaced by its upper-cased value, in which no
    lower-case letter is left, and with nothing else changed; the channel is
    then unchanged only when the declared country had no lower-case
    letter. *)
Theorem Channel_toString_uppercases_country (short : bool) (c : Channel) :
  (JS.some_char JS.is_lower_letter (tvg_country (tvg c)) = true →
   snd (Channel_toString short c) ≠ c)
  ∧ (JS.some_char JS.upper_outside (tvg_country (tvg c)) = false →
     snd (Channel_toString short c)
     = set_tvg (set_tvg_country (JS.toUpperCase (tvg_country (tvg c))) (tvg c)) c
     ∧ tvg_country (tvg (snd (Channel_toString short c)))
       = JS.toUpperCase (tvg_country (tvg c))
     ∧ JS.some_char JS.is_lower_letter (JS.toUpperCase (tvg_country (tvg c))) = false
     ∧ (JS.some_char JS.is_lower_letter (tvg_country (tvg c)) = false →
        snd (Channel_toString short c) = c)).
Proof.
  split.
  - intros Hlower Heq. apply (toUpperCase_lower_letter _ Hlower).
    by rewrite <- Heq at 2.
  - intros _. split_and!; [done | done | |].
    + induction (tvg_country (tvg c)) as [|a s IH]; [done|]. cbn.
      rewrite IH, orb_false_r. by destruct a as [[] [] [] [] [] [] [] []].
    + intros Hnone. unfold Channel_toString. cbn [snd].
      rewrite toUpperCase_no_lower_letter by done.
      by destruct c as [[] ? ? ? ? ? ? ? ? ?].
Qed.

End SerializerFacts.

(** C9: on the code, normalizing again what was serialized and
    serializing it does not always reproduce the text.  The name built from
    the title "[HD]  A" starts with the space of an empty token; it is
    printed after the comma and the next [parseTitle] trims it away, so the
    second text differs from the first.  The inner word of a status of three
    words stays in the name and is printed beside the status: read back, the
    name has that word twice, and the text grows at every round. *)
Theorem serialize_normalize_changes_text :
  (Parser.name Sample.spaced = " A"
   ∧ Parser.title_text Sample.spaced = " A [HD]"
   ∧ Parser.name Sample.spaced_again = "A"
   ∧ Parser.title_text Sample.spaced_again = "A [HD]"
   ∧ Parser.tvg Sample.spaced_again
     = Parser.tvg (snd (Parser.Channel_toString true Sample.spaced))
   ∧ fst (Parser.Channel_toString true Sample.spaced_again)
     ≠ fst (Parser.Channel_toString true Sample.spaced)
   ∧ fst (Parser.Playlist_toString true (Sample.single (Parser.title_text Sample.spaced)))
     ≠ fst (Parser.Playlist_toString true (Sample.single "[HD]  A")))
  ∧ (Parser.title_text Sample.wordy = "X blocked [Geo blocked now]"
     ∧ Parser.title_text Sample.wordy_again = "X blocked blocked [Geo blocked now]"
     ∧ fst (Parser.Channel_toString true Sample.wordy_again)
       ≠ fst (Parser.Channel_toString true Sample.wordy)).
Proof.
  split; split_and!; try (by vm_compute); apply String.eqb_neq; by vm_compute.
Qed.

Lemma Channel_toString_uppercases_country_witness :
  Parser.tvg_country (Parser.tvg Sample.accented) = "uk;" +:+ String "233" EmptyString
  ∧ Parser.tvg_country (Parser.tvg (snd (Parser.Channel_toString true Sample.accented)))
    = "UK;" +:+ String "201" EmptyString
  ∧ snd (Parser.Channel_toString true Sample.accented) ≠ Sample.accented.
Proof.
  destruct (Channel_toString_uppercases_country true Sample.accented) as [Hdiffers Hvalue].
  destruct Hvalue as (_ & Hcountry & _); [reflexivity|].
  split_and!; [reflexivity | exact Hcountry | apply Hdiffers; reflexivity].
Defined.

(** * Further properties of the scripts *)

(** ** Deduplication and the unsorted pool *)

Section PoolFacts.
Import Parser Format.

Lemma filter_unseen_undefined (l : list Channel) (buffer : gmap string bool) (c : Channel) :
  In c (filter_unseen buffer l) → is_undefined buffer (url c) = true.
Proof.
  revert buffer. induction l as [|i l IH]; intros buffer; [done|]. cbn.
  destruct (is_undefined buffer (url i)) eqn:Hi; [|by apply IH].
  intros [->|Hc]; [done|]. apply IH in Hc.
  rewrite is_undefined_insert in Hc. by destruct (String.eqb (url i) (url c)).
Qed.

Lemma filter_unseen_NoDup (l : list Channel) (buffer : gmap string bool) :
  NoDup (map url (filter_unseen buffer l)).
Proof.
  revert buffer. induction l as [|i l IH]; intros buffer; cbn; [constructor|].
  destruct (is_undefined buffer (url i)); [|by apply IH].
  cbn. constructor; [|by apply IH].
  rewrite list_elem_of_In, in_map_iff. intros (c & Hu & Hc).
  apply filter_unseen_undefined in Hc. rewrite is_undefined_insert, Hu in Hc.
  by rewrite String.eqb_refl in Hc.
Qed.

Lemma filter_unseen_sublist (l : list Channel) (buffer : gmap string bool) :
  sublist (filter_unseen buffer l) l.
Proof.
  revert buffer. induction l as [|i l IH]; intros buffer; cbn; [constructor|].
  destruct (is_undefined buffer (url i)); [by apply sublist_skip | by apply sublist_cons].
Qed.

Lemma url_in_filter (l : list Channel) (u : string) :
  In u (map url l) ↔ List.filter (fun x => String.eqb (url x) u) l ≠ [].
Proof.
  rewrite in_map_iff. split.
  - intros (c & Hu & Hc) Hnil.
    assert (Hin : In c (List.filter (fun x => String.eqb (url x) u) l)).
    { apply filter_In. split; [done|]. by apply String.eqb_eq. }
    by rewrite Hnil in Hin.
  - destruct (List.filter _ l) as [|c rest] eqn:Hf; [done|]. intros _.
    assert (Hin : In c (List.filter (fun x => String.eqb (url x) u) l)).
    { rewrite Hf. by left. }
    apply filter_In in Hin as [Hc Hu%String.eqb_eq]. by exists c.
Qed.

(** X1.  After [removeDuplicates] no two channels of the playlist have the same
    url. *)
Theorem removeDuplicates_distinct_urls (playlist : Playlist) :
  NoDup (map url (channels (removeDuplicates playlist))).
Proof. apply filter_unseen_NoDup. Qed.

(** X2.  [removeDuplicates] leaves the url and the header of the playlist as
    they are and keeps a subsequence of the channels, in their order; the
    urls that still occur are the urls of the playlist that are not names of
    properties an object literal inherits. *)
Theorem removeDuplicates_keeps_streams (playlist : Playlist) :
  playlist_url (removeDuplicates playlist) = playlist_url playlist
  ∧ header (removeDuplicates playlist) = header playlist
  ∧ sublist (channels (removeDuplicates playlist)) (channels playlist)
  ∧ ∀ u, In u (map url (channels (removeDuplicates playlist)))
         ↔ In u (map url (channels playlist)) ∧ inherited u = false.
Proof.
  split_and!; [done | done | apply filter_unseen_sublist |].
  intros u. cbn [removeDuplicates set_channels channels].
  rewrite !url_in_filter, filter_unseen_url. unfold is_undefined.
  rewrite lookup_empty.
  destruct (inherited u); cbn; [by split; [|intros [_ ?]]|].
  destruct (List.filter _ (channels playlist)); cbn; split; try done; by intros [? _].
Qed.

(** X3.  Once a playlist is deduplicated, deduplicating it again changes
    nothing. *)
Theorem removeDuplicates_twice (playlist : Playlist) :
  removeDuplicates (removeDuplicates playlist) = removeDuplicates playlist.
Proof.
  unfold removeDuplicates. cbn [set_channels channels playlist_url header].
  by rewrite filter_unseen_idemp.
Qed.

Lemma filter_length_all {A : Type} (f : A → bool) (l : list A) :
  List.length (List.filter f l) = List.length l → List.filter f l = l.
Proof.
  induction l as [|x l IH]; [done|]. cbn. destruct (f x); cbn.
  - intros [= Hl]. by rewrite IH.
  - intros Hl. pose proof (filter_length_le f l). lia.
Qed.

Lemma channels_removeUnsortedDuplicates (globalBuffer : list Channel) (playlist : Playlist) :
  channels (removeUnsortedDuplicates globalBuffer playlist) =
  List.filter (fun i => negb (JS.includes (map url globalBuffer) (url i)))
              (channels playlist).
Proof.
  unfold removeUnsortedDuplicates. cbv zeta.
  destruct (Nat.eqb_spec
              (List.length (List.filter (fun i => negb (JS.includes (map url globalBuffer) (url i)))
                                        (channels playlist)))
              (List.length (channels playlist))) as [Hl|Hl]; [|done].
  by rewrite filter_length_all.
Qed.

Lemma buffer_listed_from (loadPlaylist : string → Playlist) (playlists : list Item)
    (globalBuffer : list Channel) :
  (∀ u, playlist_url (loadPlaylist u) = u) →
  Forall (fun i => item_url i ≠ "channels/unsorted.m3u") playlists →
  fold_left (fun globalBuffer playlist =>
               fst (addToBuffer globalBuffer (loadPlaylist (item_url playlist))))
            playlists globalBuffer
  = globalBuffer ++ List.concat (map (fun i => channels (loadPlaylist (item_url i))) playlists).
Proof.
  intros Hurl Hl. revert globalBuffer.
  induction Hl as [|i l Hi Hl IH]; intros globalBuffer; cbn.
  - by rewrite app_nil_r.
  - rewrite IH. unfold addToBuffer. rewrite Hurl.
    destruct (String.eqb_spec (item_url i) "channels/unsorted.m3u"); [done|].
    cbn. by rewrite <- app_assoc.
Qed.

End PoolFacts.

Section UnsortedFacts.
Import Parser Format.

Variable region2codes : string → list string.
Variable code2name : string → JS.value.
Variable language2code : string → JS.value.
Variable getBasename : string → string.
Variable categories : list Category.
Variable readPlaylist : string → Header * list Item.
Variable filterPlaylists : list Item → list Item.

(** X4.  The playlists [main] walks through never include the unsorted pool,
    so each of them is added to the buffer; what
    [removeUnsortedDuplicates] then keeps of the pool is, in their order,
    exactly the channels whose url is the url of no channel of a listed
    playlist as it was loaded. *)
Theorem removeUnsortedDuplicates_against_listed (index : list Item) (unsorted : Playlist) :
  let load := parsePlaylist region2codes code2name language2code getBasename categories
                            readPlaylist in
  let listed := parseIndex filterPlaylists index in
  let result := removeUnsortedDuplicates (buffer_listed load listed) unsorted in
  buffer_listed load listed
    = List.concat (map (fun i => channels (load (item_url i))) listed)
  ∧ playlist_url result = playlist_url unsorted
  ∧ sublist (channels result) (channels unsorted)
  ∧ ∀ c, In c (channels result)
         ↔ In c (channels unsorted)
           ∧ ∀ i c', In i listed → In c' (channels (load (item_url i))) → url c' ≠ url c.
Proof.
  cbn zeta.
  set (load := parsePlaylist region2codes code2name language2code getBasename categories
                             readPlaylist).
  set (listed := parseIndex filterPlaylists index).
  assert (Hbuffer : buffer_listed load listed
            = List.concat (map (fun i => channels (load (item_url i))) listed)).
  { unfold buffer_listed. rewrite buffer_listed_from; [done|done|].
    apply List.Forall_forall. intros i [_ Hi]%filter_In.
    apply negb_true_iff in Hi. by apply String.eqb_neq. }
  split_and!.
  - exact Hbuffer.
  - unfold removeUnsortedDuplicates. cbv zeta. by destruct (Nat.eqb _ _).
  - rewrite channels_removeUnsortedDuplicates.
    induction (channels unsorted) as [|c l IH]; cbn; [constructor|].
    destruct (negb _); [by apply sublist_skip | by apply sublist_cons].
  - intros c. rewrite channels_removeUnsortedDuplicates, filter_In, Hbuffer.
    rewrite negb_true_iff.
    assert (Hincl : JS.includes
                      (map url (List.concat (map (fun i => channels (load (item_url i))) listed)))
                      (url c) = false
                    ↔ ∀ i c', In i listed → In c' (channels (load (item_url i))) →
                              url c' ≠ url c).
    { rewrite <- not_true_iff_false, includes_elem_of, list_elem_of_In, in_map_iff.
      split.
      - intros Hno i c' Hi Hc' Hu. apply Hno. exists c'. split; [done|].
        apply in_concat. exists (channels (load (item_url i))). split; [|done].
        apply in_map_iff. by exists i.
      - intros Hno (c' & Hu & Hc'). apply in_concat in Hc' as (chs & Hchs & Hc').
        apply in_map_iff in Hchs as (i & <- & Hi). by apply (Hno i c'). }
    by rewrite Hincl.
Qed.

End UnsortedFacts.

(** ** The prober *)

Section ProbeFacts.
Import Parser Format.

Lemma strip_prefix_Some (p s r : string) :
  JS.strip_prefix p s = Some r → s = p +:+ r.
Proof.
  revert s. induction p as [|a p IH]; intros s; cbn.
  - by intros [= ->].
  - destruct s as [|b s]; [done|].
    destruct (Ascii.eqb_spec a b) as [->|]; [|done].
    intros Hr%IH. by rewrite Hr.
Qed.

Lemma span_digits_split (s : string) :
  s = fst (JS.span_digits s) +:+ snd (JS.span_digits s)
  ∧ JS.some_char (fun c => negb (JS.is_digit c)) (fst (JS.span_digits s)) = false.
Proof.
  induction s as [|c s [IH1 IH2]]; [done|]. cbn.
  destruct (JS.is_digit c) eqn:Hc; [|done].
  destruct (JS.span_digits s) as [ds r]. cbn in *.
  rewrite Hc, IH2. split; [by rewrite IH1 at 1|done].
Qed.

Lemma marker_at_Some (s w h : string) (len : nat) :
  marker_at s = Some (w, h, len) →
  (∃ post, s = "RESOLUTION=" +:+ w +:+ "x" +:+ h +:+ post)
  ∧ JS.truthy w = true ∧ JS.truthy h = true
  ∧ JS.some_char (fun c => negb (JS.is_digit c)) w = false
  ∧ JS.some_char (fun c => negb (JS.is_digit c)) h = false.
Proof.
  unfold marker_at.
  destruct (JS.strip_prefix "RESOLUTION=" s) as [r|] eqn:Hr; [|done].
  apply strip_prefix_Some in Hr as ->.
  destruct (span_digits_split r) as [Hr Hw].
  destruct (JS.span_digits r) as [[|d ds] [|x r']]; [done..|].
  destruct (span_digits_split r') as [Hr' Hh].
  destruct (JS.span_digits r') as [[|e es] post]; [done|].
  destruct (Ascii.eqb_spec x "x") as [->|]; [|done].
  intros [= <- <- _]. cbn [fst snd] in *.
  split_and!; [|done..]. exists post. by rewrite Hr at 1; rewrite Hr' at 1.
Qed.

Lemma matchAll_from_marker (s : string) (skip : nat) (m : string * string) :
  In m (matchAll_from skip s) →
  (∃ pre post, s = pre +:+ "RESOLUTION=" +:+ fst m +:+ "x" +:+ snd m +:+ post)
  ∧ JS.truthy (fst m) = true ∧ JS.truthy (snd m) = true
  ∧ JS.some_char (fun c => negb (JS.is_digit c)) (fst m) = false
  ∧ JS.some_char (fun c => negb (JS.is_digit c)) (snd m) = false.
Proof.
  revert skip. induction s as [|c s IH]; intros skip; [done|].
  assert (Hlater : ∀ k, In m (matchAll_from k s) →
    (∃ pre post, String c s = pre +:+ "RESOLUTION=" +:+ fst m +:+ "x" +:+ snd m +:+ post)
    ∧ JS.truthy (fst m) = true ∧ JS.truthy (snd m) = true
    ∧ JS.some_char (fun c => negb (JS.is_digit c)) (fst m) = false
    ∧ JS.some_char (fun c => negb (JS.is_digit c)) (snd m) = false).
  { intros k Hk. destruct (IH k Hk) as ((pre & post & ->) & H).
    split; [|done]. by exists (String c pre), post. }
  cbn [matchAll_from]. destruct skip as [|k]; [|by apply Hlater].
  destruct (marker_at (String c s)) as [[[w h] len]|] eqn:Hm; [|by apply Hlater].
  intros [<-|Hin]; [|by eapply Hlater].
  apply marker_at_Some in Hm as ((post & Hs) & H). split; [|done].
  by exists EmptyString, post.
Qed.

(** X5.  Whatever [parseResolution] selects was declared in the body: it has a
    width and a height, read from the digits of a marker
    [RESOLUTION=<digits>x<digits>] that occurs in the body. *)
Theorem parseResolution_from_marker (body : string) (r : Resolution) :
  parseResolution body = Some r →
  ∃ pre w h post,
    body = pre +:+ "RESOLUTION=" +:+ w +:+ "x" +:+ h +:+ post
    ∧ JS.truthy w = true ∧ JS.truthy h = true
    ∧ JS.some_char (fun c => negb (JS.is_digit c)) w = false
    ∧ JS.some_char (fun c => negb (JS.is_digit c)) h = false
    ∧ r = {| width := Some (JS.parseInt w); height := Some (JS.parseInt h) |}.
Proof.
  unfold parseResolution.
  destruct (map to_resolution (matchAll body)) as [|r0 arr] eqn:Harr; [done|].
  intros [= <-].
  destruct (reduce_higher arr r0) as (l1 & m & l2 & Heq & Hm & _).
  assert (Hin : In m (map to_resolution (matchAll body))).
  { rewrite Harr, Heq. apply in_elt. }
  apply in_map_iff in Hin as ([w h] & Hwh & Hin).
  apply matchAll_from_marker in Hin as ((pre & post & Hbody) & Hw & Hh & Hdw & Hdh).
  exists pre, w, h, post. by rewrite Hm, <- Hwh.
Qed.

Lemma parseResolution_from_marker_witness :
  ∃ pre w h post,
    Sample.manifest = pre +:+ "RESOLUTION=" +:+ w +:+ "x" +:+ h +:+ post
    ∧ JS.parseInt w = 1920 ∧ JS.parseInt h = 1080.
Proof.
  destruct (parseResolution_from_marker Sample.manifest
              {| width := Some 1920; height := Some 1080 |})
    as (pre & w & h & post & Hbody & _ & _ & _ & _ & [= Hw Hh]); [by vm_compute|].
  by exists pre, w, h, post.
Defined.

Lemma probe_frame (response : option Response) (channel : Channel) :
  set_resolution (resolution channel) (probe response channel) = channel.
Proof.
  unfold probe. destruct channel as [? ? ? ? ? ? ? ? ? ?].
  destruct response as [r|]; [|done].
  destruct (response_status r =? 200); [|done].
  destruct (JS.strip_prefix "#EXTM3U" (response_data r)); [|done].
  by destruct (parseResolution (response_data r)).
Qed.

(** X6.  The loop body of [detectResolution] changes nothing of a channel but
    its resolution, and changes that only for a response with status 200
    whose body starts with [#EXTM3U] and declares a resolution. *)
Theorem probe_touches_resolution_only (response : option Response) (channel : Channel) :
  set_resolution (resolution channel) (probe response channel) = channel
  ∧ (probe response channel ≠ channel →
     ∃ r, response = Some r
          ∧ response_status r = 200
          ∧ JS.strip_prefix "#EXTM3U" (response_data r) ≠ None
          ∧ matchAll (response_data r) ≠ []
          ∧ parseResolution (response_data r) = Some (resolution (probe response channel))).
Proof.
  unfold probe. destruct channel as [? ? ? ? ? ? ? ? ? ?].
  destruct response as [r|]; [|done].
  destruct (N.eqb_spec (response_status r) 200) as [Hs|]; [|done].
  destruct (JS.strip_prefix "#EXTM3U" (response_data r)) eqn:Hp; [|done].
  destruct (parseResolution (response_data r)) as [res|] eqn:Hres; [|done].
  split; [done|]. intros _. exists r. split_and!.
  - done.
  - done.
  - by rewrite Hp.
  - intros Hnil. unfold parseResolution in Hres. by rewrite Hnil in Hres.
  - by rewrite Hres.
Qed.

Lemma probe_touches_resolution_only_witness :
  ∃ r, Some {| response_status := 200; response_data := Sample.manifest |} = Some r
       ∧ response_status r = 200
       ∧ parseResolution (response_data r)
         = Some (resolution (probe (Some {| response_status := 200;
                                            response_data := Sample.manifest |})
                                   (Sample.channel "BBC One" "UK" "http://example.org/one.m3u8"))).
Proof.
  destruct (probe_touches_resolution_only
              (Some {| response_status := 200; response_data := Sample.manifest |})
              (Sample.channel "BBC One" "UK" "http://example.org/one.m3u8"))
    as [_ H].
  destruct H as (r & Hr & Hs & _ & _ & Hres); [by vm_compute|].
  by exists r.
Defined.

Lemma span_digits_all (w : string) :
  JS.some_char (fun c => negb (JS.is_digit c)) w = false →
  JS.span_digits w = (w, EmptyString).
Proof.
  induction w as [|c w IH]; [done|]. cbn. intros [Hc Hw]%orb_false_elim.
  apply negb_false_iff in Hc. by rewrite Hc, IH.
Qed.

Lemma marker_at_marker (w h post : string) :
  JS.truthy w = true → JS.truthy h = true →
  JS.some_char (fun c => negb (JS.is_digit c)) w = false →
  JS.some_char (fun c => negb (JS.is_digit c)) h = false →
  marker_at ("RESOLUTION=" +:+ w +:+ "x" +:+ h +:+ post) ≠ None.
Proof.
  intros Hw Hh Hdw Hdh. unfold marker_at.
  change (JS.strip_prefix "RESOLUTION=" ("RESOLUTION=" +:+ w +:+ "x" +:+ h +:+ post))
    with (Some (w +:+ String "x" (h +:+ post))).
  cbv beta iota. rewrite span_digits_append, span_digits_all by done. cbn [fst snd].
  destruct w as [|d ds]; [done|]. rewrite append_nil.
  destruct h as [|e es]; [done|]. rewrite append_cons. cbn [JS.span_digits].
  cbn in Hdh. apply orb_false_elim in Hdh as [He%negb_false_iff _]. rewrite He.
  by destruct (JS.span_digits (es +:+ post)).
Qed.

(** X7.  A body in which a marker [RESOLUTION=<digits>x<digits>] occurs always
    has a resolution selected. *)
Theorem parseResolution_finds_marker (pre w h post : string) :
  JS.truthy w = true → JS.truthy h = true →
  JS.some_char (fun c => negb (JS.is_digit c)) w = false →
  JS.some_char (fun c => negb (JS.is_digit c)) h = false →
  parseResolution (pre +:+ "RESOLUTION=" +:+ w +:+ "x" +:+ h +:+ post) ≠ None.
Proof.
  intros Hw Hh Hdw Hdh.
  assert (Hall : matchAll (pre +:+ "RESOLUTION=" +:+ w +:+ "x" +:+ h +:+ post) ≠ []).
  { unfold matchAll. induction pre as [|c pre IH].
    - pose proof (marker_at_marker w h post Hw Hh Hdw Hdh) as Hm.
      rewrite append_nil.
      change ("RESOLUTION=" +:+ w +:+ "x" +:+ h +:+ post)
        with (String "R" ("ESOLUTION=" +:+ w +:+ "x" +:+ h +:+ post)) in *.
      cbn [matchAll_from].
      by destruct (marker_at _) as [[[? ?] ?]|].
    - rewrite append_cons. cbn [matchAll_from].
      by destruct (marker_at _) as [[[? ?] ?]|]. }
  unfold parseResolution.
  destruct (matchAll _); [done|]. done.
Qed.

Lemma parseResolution_finds_marker_witness :
  parseResolution ("#EXTM3U" +:+ "RESOLUTION=" +:+ "640" +:+ "x" +:+ "360" +:+ ",CODECS") ≠ None.
Proof. apply (parseResolution_finds_marker "#EXTM3U" "640" "360" ",CODECS"); reflexivity. Defined.

Lemma Forall2_imap_frame {A : Type} (R : A → A → Prop) (f : nat → A → A) (l : list A) :
  (∀ k x, R x (f k x)) → Forall2 R l (imap f l).
Proof.
  revert f. induction l as [|x l IH]; intros f Hf; cbn; constructor; [done|].
  apply IH. intros k y. apply Hf.
Qed.

(** X8.  [detectResolution] never drops, adds or reorders a channel, and
    changes nothing of a channel but its resolution, whatever the requests
    answer. *)
Theorem detectResolution_keeps_channels
    (config : Config) (get : nat → string → option Response) (playlist : Playlist) :
  let result := detectResolution config get playlist in
  playlist_url result = playlist_url playlist
  ∧ header result = header playlist
  ∧ Forall2 (fun c c' => set_resolution (resolution c) c' = c)
            (channels playlist) (channels result)
  ∧ map url (channels result) = map url (channels playlist).
Proof.
  cbn zeta. unfold detectResolution.
  assert (Hframe : Forall2 (fun c c' => set_resolution (resolution c) c' = c)
            (channels playlist)
            (imap (fun k channel => probe (get k (url channel)) channel) (channels playlist))).
  { apply Forall2_imap_frame. intros k c. apply probe_frame. }
  destruct (negb (config_resolution config)).
  - split_and!; [done | done | | done].
    apply Forall_Forall2_diag, List.Forall_forall. intros c _. by destruct c.
  - cbn. split_and!; [done | done | done |].
    induction Hframe as [|c c' l l' Hc Hl IH]; [done|]. cbn. rewrite IH.
    by rewrite <- Hc.
Qed.

End ProbeFacts.

(** ** The guide merger, as a stage *)

Section StageFacts.
Import Parser Format.

Variable utils_parseLanguages : string → list Language.

Lemma merge_channels_None (epg : Epg) (l : list Channel) :
  merge_channels utils_parseLanguages epg l = None ↔
  ∃ c c', In c l ∧ merge_channel utils_parseLanguages epg c = Thrown c'.
Proof.
  induction l as [|c l IH]; cbn.
  - split; [done|]. by intros (? & ? & [] & _).
  - destruct (merge_channel utils_parseLanguages epg c) as [c'|c'] eqn:Hc.
    + destruct (merge_channels utils_parseLanguages epg l) as [l'|]; cbn.
      * split; [done|]. intros (c0 & c0' & [<-|Hin] & Hthrown); [congruence|].
        assert (Hnone : Some l' = None) by (apply IH; by exists c0, c0').
        done.
      * split; [|done]. intros _.
        destruct (proj1 IH eq_refl) as (c0 & c0' & Hin & Hthrown).
        exists c0, c0'. split; [by right|done].
    + split; [|done]. intros _. exists c, c'. split; [by left|done].
Qed.

Lemma merge_channels_frame (epg : Epg) (l l' : list Channel) :
  merge_channels utils_parseLanguages epg l = Some l' →
  Forall2 (fun c c' => set_logo (logo c)
                         (set_languages (languages c)
                            (set_tvg (set_tvg_name (tvg_name (tvg c)) (tvg c')) c')) = c)
          l l'.
Proof.
  revert l'. induction l as [|c l IH]; intros l'; cbn.
  - intros [= <-]. constructor.
  - pose proof (merge_channel_frame utils_parseLanguages epg c) as Hc. cbn zeta in Hc.
    destruct (merge_channel utils_parseLanguages epg c) as [c'|c']; [|done].
    destruct (merge_channels utils_parseLanguages epg l) as [l0|]; [|done].
    intros [= <-]. constructor; [exact Hc | by apply IH].
Qed.

(** X9.  Whenever [updateFromEPG] yields a playlist, it is the given one with
    the same url and header and the same channels in the same order, of
    which nothing but the guide name, the languages and the logo can have
    changed; in particular the stream urls are the same. *)
Theorem updateFromEPG_keeps_channels
    (config : Config) (parseEPG : string → EpgLoad) (playlist playlist' : Playlist) :
  updateFromEPG utils_parseLanguages config parseEPG playlist = Some playlist' →
  playlist_url playlist' = playlist_url playlist
  ∧ header playlist' = header playlist
  ∧ Forall2 (fun c c' => set_logo (logo c)
                           (set_languages (languages c)
                              (set_tvg (set_tvg_name (tvg_name (tvg c)) (tvg c')) c')) = c)
            (channels playlist) (channels playlist')
  ∧ map url (channels playlist') = map url (channels playlist).
Proof.
  intros Hp.
  assert (Hframe : playlist_url playlist' = playlist_url playlist
    ∧ header playlist' = header playlist
    ∧ Forall2 (fun c c' => set_logo (logo c)
                           (set_languages (languages c)
                              (set_tvg (set_tvg_name (tvg_name (tvg c)) (tvg c')) c')) = c)
            (channels playlist) (channels playlist')).
  { unfold updateFromEPG in Hp.
    assert (Hrefl : Forall2 (fun c c' => set_logo (logo c)
                           (set_languages (languages c)
                              (set_tvg (set_tvg_name (tvg_name (tvg c)) (tvg c')) c')) = c)
            (channels playlist) (channels playlist)).
    { apply Forall_Forall2_diag, List.Forall_forall.
      intros [[] ? ? ? ? ? ? ? ? ?] _. reflexivity. }
    destruct (negb (config_epg config)); [by injection Hp as <-|].
    destruct (negb (JS.truthy_value _)); [by injection Hp as <-|].
    destruct (parseEPG _) as [|[epg|]]; [done| |by injection Hp as <-].
    destruct (merge_channels _ _ _) as [l|] eqn:Hl; [|done].
    injection Hp as <-. split_and!; [done|done|]. by eapply merge_channels_frame. }
  destruct Hframe as (Hu & Hh & Hf). split_and!; [done..|].
  induction Hf as [|c c' l l' Hc Hl IH]; [done|]. cbn. rewrite IH. by rewrite <- Hc.
Qed.


(** X10.  [updateFromEPG] yields nothing (the [undefined] of its [catch]
    handler) exactly when the merge is enabled, the header declares a guide,
    and either loading the guide is rejected or the callback throws for a
    channel of the playlist. *)
Theorem updateFromEPG_fails_iff
    (config : Config) (parseEPG : string → EpgLoad) (playlist : Playlist) :
  updateFromEPG utils_parseLanguages config parseEPG playlist = None ↔
  config_epg config = true
  ∧ JS.truthy_value (get_attr "x-tvg-url" (attrs (header playlist))) = true
  ∧ (parseEPG (or_empty (get_attr "x-tvg-url" (attrs (header playlist)))) = Rejected
     ∨ ∃ epg c c',
         parseEPG (or_empty (get_attr "x-tvg-url" (attrs (header playlist))))
           = Resolved (Some epg)
         ∧ In c (channels playlist)
         ∧ merge_channel utils_parseLanguages epg c = Thrown c').
Proof.
  unfold updateFromEPG.
  destruct (config_epg config); cbn; [|by split; [|intros [? _]]].
  destruct (JS.truthy_value _); cbn; [|by split; [|intros (_ & ? & _)]].
  destruct (parseEPG _) as [|[epg|]].
  - split; [|done]. intros _. split_and!; [done..|]. by left.
  - destruct (merge_channels _ _ _) as [l|] eqn:Hl.
    + split; [done|]. intros (_ & _ & [?|(epg' & c & c' & [= <-] & Hin & Hc)]); [done|].
      assert (Hnone : merge_channels utils_parseLanguages epg (channels playlist) = None).
      { apply merge_channels_None. by exists c, c'. }
      congruence.
    + split; [|done]. intros _. split_and!; [done..|]. right.
      apply merge_channels_None in Hl as (c & c' & Hin & Hc). by exists epg, c, c'.
  - split; [done|]. by intros (_ & _ & [?|(? & ? & ? & ? & _)]).
Qed.

(** X11.  The callback never throws for a channel whose guide entry, if it has
    one, has a list of names and a list of icons; it does throw for a channel
    without a logo whose guide identifier is not an entry of the guide but the
    name of a property the index inherits. *)
Theorem merge_channel_throws (epg : Epg) (channel : Channel) :
  ((∀ item, epg_get epg (tvg_id (tvg channel)) = Some item →
            epg_names item ≠ None ∧ epg_icons item ≠ None) →
   ∃ channel', merge_channel utils_parseLanguages epg channel = Returned channel')
  ∧ (epg_channels epg !! tvg_id (tvg channel) = None →
     inherited (tvg_id (tvg channel)) = true →
     logo channel = EmptyString →
     ∃ channel', merge_channel utils_parseLanguages epg channel = Thrown channel').
Proof.
  split.
  - intros Hwf. unfold merge_channel.
    destruct (negb _); [by eexists|].
    destruct (epg_get _ _) as [[names icons]|]; [|by eexists].
    destruct (Hwf _ eq_refl) as [Hn Hi]. cbn in Hn, Hi.
    destruct names as [names|]; [|done]. destruct icons as [icons|]; [|done].
    unfold fill_name, fill_languages, fill_logo.
    destruct channel as [[] ? ? ? ? ? ? ? ? ?]; cbn.
    repeat (match goal with
            | |- context [match ?x with _ => _ end] => destruct x; cbn
            end); by eexists.
  - intros Hown Hinh Hlogo. unfold merge_channel, epg_get, inherited_item.
    rewrite Hown, Hinh.
    assert (Hid : JS.truthy (tvg_id (tvg channel)) = true).
    { by destruct (tvg_id (tvg channel)). }
    rewrite Hid. cbn [negb].
    destruct channel as [[] ? ? ? ? ? ? ? ? ?]; cbn in *. subst.
    destruct (String.eqb _ "__proto__"); cbn.
    + unfold fill_name, fill_languages, fill_logo; cbn.
      repeat (match goal with
              | |- context [match ?x with _ => _ end] => destruct x; cbn
              end); by eexists.
    + assert (Hlen : ∀ n : nat, n ≠ 0%nat →
                replicate n {| epg_value := JS.undefined; epg_lang := JS.undefined |}
                = {| epg_value := JS.undefined; epg_lang := JS.undefined |}
                  :: replicate (Nat.pred n) {| epg_value := JS.undefined; epg_lang := JS.undefined |}).
      { by intros [|n]. }
      rewrite Hlen.
      * unfold fill_name, fill_languages, fill_logo; cbn.
        repeat (match goal with
                | |- context [match ?x with _ => _ end] => destruct x; cbn
                end); by eexists.
      * destruct (String.eqb _ "constructor"); [done|].
        by destruct tvg_id0.
Qed.


End StageFacts.

Lemma updateFromEPG_keeps_channels_witness :
  Parser.playlist_url Sample.guided_merged = Parser.playlist_url Sample.guided
  ∧ map Parser.url (Parser.channels Sample.guided_merged) = map Parser.url (Parser.channels Sample.guided)
  ∧ map Parser.logo (Parser.channels Sample.guided) = [ EmptyString ]
  ∧ map Parser.logo (Parser.channels Sample.guided_merged) = [ "http://epg.example/one.png" ].
Proof.
  destruct (updateFromEPG_keeps_channels Sample.utils_parseLanguages Sample.config_all Sample.guide_loaded
              Sample.guided Sample.guided_merged) as (Hurl & _ & _ & Hurls).
  - by vm_compute.
  - split_and!; [exact Hurl | exact Hurls | reflexivity | reflexivity].
Defined.

Lemma merge_channel_throws_witness :
  (∃ channel', Format.merge_channel Sample.utils_parseLanguages Sample.guide Sample.bbc_one
               = Format.Returned channel')
  ∧ (∃ channel', Format.merge_channel Sample.utils_parseLanguages Sample.guide Sample.odd_id
                 = Format.Thrown channel').
Proof.
  split.
  - apply (merge_channel_throws Sample.utils_parseLanguages Sample.guide Sample.bbc_one).
    intros item [= <-]. by split.
  - by apply (merge_channel_throws Sample.utils_parseLanguages Sample.guide Sample.odd_id).
Defined.

(** ** The text of a playlist *)

Section TextFacts.
Import Parser Format.

Lemma append_empty_r (s : string) : s +:+ EmptyString = s.
Proof. induction s as [|c s IH]; [done|]. by rewrite append_cons, IH. Qed.



(** How the text of a channel is put together from the parts above. *)
Lemma Channel_toString_parts (short : bool) (c : Channel) :
  let c' := snd (Channel_toString short c) in
  fst (Channel_toString short c)
  = "#EXTINF:" +:+ extinf_attributes short c' +:+ "," +:+ title_text c
    +:+ http_options c +:+ newline +:+ url c +:+ newline
  ∧ ∃ before after,
      extinf_attributes true c' = before +:+ after
      ∧ extinf_attributes false c'
        = before +:+ " " +:+ attribute "tvg-url" (tvgUrl c') +:+ after.
Proof.
  cbn zeta. split.
  - unfold Channel_toString, channel_text, extinf_attributes, title_text,
      resolution_annotation, status_annotation, http_options.
    cbn [fst snd set_tvg tvg logo category name resolution status http url].
    destruct short;
      destruct (height (resolution c)) as [h|]; try destruct (JS.truthy_number (Some h));
      destruct (status c) as [st|]; try destruct (JS.truthy st);
      destruct (JS.truthy (http_referrer (http c)));
      destruct (JS.truthy (http_user_agent (http c)));
      cbv beta iota zeta; rewrite ?append_assoc, ?append_empty_r, ?append_nil;
      rewrite ?append_assoc; reflexivity.
  - eexists _, _. unfold extinf_attributes. cbv iota zeta. split; [reflexivity|].
    by rewrite !append_assoc.
Qed.

(** X14.  [savePlaylist] writes exactly when the short text of the playlist
    differs from what the file holds, and then writes that text under the
    url of the playlist; saving again, over what the file then holds, writes
    nothing. *)
Theorem savePlaylist_settles (original : string) (playlist : Playlist) :
  let output := fst (Playlist_toString true playlist) in
  let playlist' := snd (Playlist_toString true playlist) in
  savePlaylist original playlist
  = (if String.eqb original output
     then (false, None, playlist')
     else (true, Some (playlist_url playlist, output), playlist'))
  ∧ (fst (fst (savePlaylist original playlist)) = false ↔ original = output)
  ∧ savePlaylist output playlist' = (false, None, playlist').
Proof.
  cbn zeta. unfold savePlaylist.
  pose proof (Playlist_toString_again true playlist) as Hagain.
  destruct (Playlist_toString true playlist) as [output playlist'] eqn:Hp.
  cbn [fst snd] in *. rewrite Hagain. rewrite String.eqb_refl.
  split_and!; [done| |done].
  destruct (String.eqb_spec original output); cbn; by split.
Qed.

End TextFacts.

(** ** Printing a title and parsing it again *)

Section RoundTripFacts.
Import Parser Format.

Lemma pretty_N_char_digit (m : N) :
  m < 10 →
  JS.is_digit (pretty_N_char m) = true ∧ JS.digit_value (pretty_N_char m) = m.
Proof.
  intros Hm.
  assert (m = 0 ∨ m = 1 ∨ m = 2 ∨ m = 3 ∨ m = 4 ∨ m = 5 ∨ m = 6 ∨ m = 7 ∨ m = 8 ∨ m = 9)
    as Hcases by lia.
  repeat destruct Hcases as [->|Hcases]; try subst m; by vm_compute.
Qed.

Lemma pretty_N_go_digits (x : N) (s : string) :
  JS.some_char (fun c => negb (JS.is_digit c)) s = false →
  JS.some_char (fun c => negb (JS.is_digit c)) (pretty_N_go x s) = false.
Proof.
  revert s. induction (N.lt_wf_0 x) as [x _ IH]; intros s Hs.
  destruct (decide (x = 0)) as [->|Hx]; [by rewrite pretty_N_go_0|].
  rewrite pretty_N_go_step by lia. apply IH; [apply N.div_lt; lia|].
  cbn. rewrite Hs.
  destruct (pretty_N_char_digit (x `mod` 10)) as [-> _]; [|done].
  apply N.mod_lt. lia.
Qed.

Lemma pretty_N_go_truthy (x : N) (s : string) :
  JS.truthy s = true → JS.truthy (pretty_N_go x s) = true.
Proof.
  revert s. induction (N.lt_wf_0 x) as [x _ IH]; intros s Hs.
  destruct (decide (x = 0)) as [->|Hx]; [by rewrite pretty_N_go_0|].
  rewrite pretty_N_go_step by lia. apply IH; [apply N.div_lt; lia|done].
Qed.

Lemma parseInt_pretty_N_go (x : N) (s : string) :
  JS.parseInt_acc 0 (pretty_N_go x s) = JS.parseInt_acc x s.
Proof.
  revert s. induction (N.lt_wf_0 x) as [x _ IH]; intros s.
  destruct (decide (x = 0)) as [->|Hx]; [by rewrite pretty_N_go_0|].
  rewrite pretty_N_go_step by lia. rewrite IH by (apply N.div_lt; lia).
  cbn [JS.parseInt_acc]. f_equal.
  destruct (pretty_N_char_digit (x `mod` 10)) as [_ ->]; [apply N.mod_lt; lia|].
  symmetry. apply N.div_mod. lia.
Qed.

(** A positive number prints as a non-empty string of digits that
    [parseInt] reads back. *)
Lemma pretty_positive_digits (n : N) :
  n ≠ 0 →
  JS.truthy (pretty n) = true
  ∧ JS.some_char (fun c => negb (JS.is_digit c)) (pretty n) = false
  ∧ JS.parseInt (pretty n) = n.
Proof.
  intros Hn. unfold pretty, pretty_N. destruct (decide (n = 0)); [done|].
  split_and!.
  - rewrite pretty_N_go_step by lia. by apply pretty_N_go_truthy.
  - by apply pretty_N_go_digits.
  - unfold JS.parseInt. by rewrite parseInt_pretty_N_go.
Qed.

Lemma trimEnd_solid (s : string) :
  JS.some_char JS.is_white_space s = false → JS.trimEnd s = s.
Proof.
  induction s as [|c s IH]; [done|]. cbn. intros [Hc Hs]%orb_false_elim.
  rewrite IH by done. rewrite Hc. by destruct s.
Qed.

Lemma trimEnd_append (a b : string) :
  JS.truthy b = true → JS.trimEnd b = b → JS.trimEnd (a +:+ b) = a +:+ b.
Proof.
  intros Hb Hid. induction a as [|c a IH]; [done|].
  rewrite append_cons. cbn [JS.trimEnd]. rewrite IH.
  destruct (a +:+ b) eqn:Hab; [|done].
  destruct a; [|done]. rewrite append_nil in Hab. by rewrite Hab in Hb.
Qed.

Lemma trim_solid (s : string) :
  JS.some_char JS.is_white_space s = false → JS.trim s = s.
Proof.
  intros Hs. unfold JS.trim.
  assert (JS.trimStart s = s) as ->.
  { destruct s as [|c s]; [done|]. cbn in *.
    apply orb_false_elim in Hs as [-> _]. done. }
  by apply trimEnd_solid.
Qed.

Lemma join_cons (sep t : string) (l : list string) :
  l ≠ [] → JS.join sep (t :: l) = t +:+ sep +:+ JS.join sep l.
Proof. by destruct l. Qed.

Lemma join_app (sep : string) (l1 l2 : list string) :
  l1 ≠ [] → l2 ≠ [] →
  JS.join sep (l1 ++ l2) = JS.join sep l1 +:+ sep +:+ JS.join sep l2.
Proof.
  intros H1 H2. induction l1 as [|t l1 IH]; [done|].
  destruct l1 as [|t' l1].
  - cbn [app]. by rewrite join_cons.
  - change ((t :: t' :: l1) ++ l2) with (t :: (t' :: l1) ++ l2).
    rewrite !join_cons by done. rewrite IH by done. by rewrite !append_assoc.
Qed.

Lemma trim_join (l : list string) :
  l ≠ [] →
  Forall (fun t => JS.truthy t = true ∧ JS.some_char JS.is_white_space t = false) l →
  JS.trim (JS.join " " l) = JS.join " " l.
Proof.
  intros Hne Hl. unfold JS.trim.
  assert (JS.trimStart (JS.join " " l) = JS.join " " l) as ->.
  { destruct Hl as [|t l [Ht Hws] Hl]; [done|].
    assert (Hstart : ∀ r, JS.trimStart (t +:+ r) = t +:+ r).
    { intros r. destruct t as [|c t]; [done|]. cbn in Hws.
      apply orb_false_elim in Hws as [Hc _]. rewrite append_cons. cbn. by rewrite Hc. }
    destruct l; [|by rewrite join_cons].
    cbn. specialize (Hstart EmptyString). by rewrite append_empty_r in Hstart. }
  induction Hl as [|t l [Ht Hws] Hl IH]; [done|].
  destruct l as [|t' l].
  - cbn. by apply trimEnd_solid.
  - rewrite join_cons by done. rewrite <- append_assoc.
    apply trimEnd_append; [|by apply IH].
    destruct (JS.join " " (t' :: l)) eqn:Hj; [|done].
    apply Forall_cons in Hl as [[Ht' _] _].
    destruct t'; [done|]. destruct l; done.
Qed.

Lemma split_solid (t : string) :
  JS.some_char JS.is_white_space t = false → JS.split " " t = [t].
Proof.
  induction t as [|c t IH]; [done|]. cbn. intros [Hc Ht]%orb_false_elim.
  rewrite IH by done.
  destruct (Ascii.eqb_spec c " ") as [->|]; [done|]. done.
Qed.

Lemma split_solid_append (t r : string) :
  JS.some_char JS.is_white_space t = false →
  JS.split " " (t +:+ String " " r) = t :: JS.split " " r.
Proof.
  induction t as [|c t IH]; [done|]. cbn. intros [Hc Ht]%orb_false_elim.
  rewrite append_cons. cbn [JS.split]. rewrite IH by done.
  destruct (Ascii.eqb_spec c " ") as [->|]; [done|]. done.
Qed.

Lemma split_join (l : list string) :
  l ≠ [] →
  Forall (fun t => JS.truthy t = true ∧ JS.some_char JS.is_white_space t = false) l →
  JS.split " " (JS.join " " l) = l.
Proof.
  intros Hne Hl. induction Hl as [|t l [Ht Hws] Hl IH]; [done|].
  destruct l as [|t' l].
  - cbn. by apply split_solid.
  - rewrite join_cons by done. change (" " +:+ JS.join " " (t' :: l))
      with (String " " (JS.join " " (t' :: l))).
    rewrite split_solid_append by done. by rewrite IH.
Qed.

Lemma resolution_match_skip (a b : string) :
  resolution_match a = None →
  resolution_match (a +:+ String " " b) = resolution_match (String " " b).
Proof.
  intros Ha. induction a as [|c a IH]; [done|].
  cbn [resolution_match] in Ha.
  destruct (resolution_at (String c a)) eqn:Hat; [done|].
  rewrite append_cons. cbn [resolution_match].
  change (String c (a +:+ String " " b)) with (String c a +:+ String " " b).
  rewrite resolution_at_separator by done. auto.
Qed.

Lemma contains_digits (c : ascii) (s : string) :
  JS.is_digit c = false →
  JS.some_char (fun c => negb (JS.is_digit c)) s = false →
  JS.contains c s = false.
Proof.
  intros Hc. induction s as [|a s IH]; [done|]. cbn.
  intros [Ha%negb_false_iff Hs]%orb_false_elim. rewrite IH by done.
  destruct (Ascii.eqb_spec a c) as [->|]; [congruence|done].
Qed.

Lemma contains_white_space (c : ascii) (s : string) :
  JS.is_white_space c = true →
  JS.some_char JS.is_white_space s = false →
  JS.contains c s = false.
Proof.
  intros Hc. induction s as [|a s IH]; [done|]. cbn.
  intros [Ha Hs]%orb_false_elim. rewrite IH by done.
  destruct (Ascii.eqb_spec a c) as [->|]; [congruence|done].
Qed.

Lemma some_char_append (f : ascii → bool) (s t : string) :
  JS.some_char f (s +:+ t) = JS.some_char f s || JS.some_char f t.
Proof.
  induction s as [|a s IH]; [done|].
  rewrite append_cons. cbn. rewrite IH. apply orb_assoc.
Qed.

Lemma resolution_match_no_paren (s : string) :
  JS.contains "(" s = false → resolution_match s = None.
Proof.
  induction s as [|c s IH]; [done|]. cbn.
  intros [Hc Hs]%orb_false_elim. rewrite Hc. auto.
Qed.

Lemma digits_no_white_space (s : string) :
  JS.some_char (fun c => negb (JS.is_digit c)) s = false →
  JS.some_char JS.is_white_space s = false.
Proof.
  induction s as [|a s IH]; [done|]. cbn.
  intros [Ha%negb_false_iff Hs]%orb_false_elim. rewrite IH by done.
  rewrite orb_false_r. revert Ha. by destruct a as [[] [] [] [] [] [] [] []].
Qed.

Lemma resolution_match_printed (ds rest : string) :
  JS.truthy ds = true →
  JS.some_char (fun c => negb (JS.is_digit c)) ds = false →
  resolution_match (String "(" (ds +:+ String "p" (String ")" rest))) = Some ds.
Proof.
  intros Ht Hd. cbn [resolution_match resolution_at].
  rewrite Ascii.eqb_refl.
  rewrite span_digits_append, span_digits_all by done. cbn [fst snd].
  destruct ds as [|d ds]; [done|]. by rewrite append_nil.
Qed.

Lemma resolution_match_space (b : string) :
  resolution_match (String " " b) = resolution_match b.
Proof. reflexivity. Qed.

Lemma title_tokens_join (toks extra : list string) :
  toks ≠ [] →
  Forall (fun t => JS.truthy t = true ∧ JS.some_char JS.is_white_space t = false
                   ∧ keep_token t = true) toks →
  Forall (fun t => JS.truthy t = true ∧ JS.some_char JS.is_white_space t = false
                   ∧ keep_token t = false) extra →
  title_tokens (JS.join " " (toks ++ extra)) = toks.
Proof.
  intros Hne Htoks Hextra. unfold title_tokens.
  assert (Hsolid : Forall (fun t => JS.truthy t = true
                                    ∧ JS.some_char JS.is_white_space t = false)
                          (toks ++ extra)).
  { apply Forall_app. split; eapply Forall_impl; eauto; cbn; tauto. }
  assert (Hne' : toks ++ extra ≠ []) by by destruct toks.
  rewrite trim_join, split_join by done.
  assert (Htrim : map JS.trim (toks ++ extra) = toks ++ extra).
  { clear Hne'. induction Hsolid as [|t l [_ Ht] Hl IH]; [done|].
    cbn. by rewrite trim_solid, IH. }
  rewrite Htrim, List.filter_app.
  assert (List.filter keep_token toks = toks) as ->.
  { clear Hne Hsolid Hne' Htrim. induction Htoks as [|t l (_ & _ & Ht) Hl IH]; [done|].
    cbn. by rewrite Ht, IH. }
  assert (List.filter keep_token extra = []) as ->.
  { clear Hsolid Hne' Htrim. induction Hextra as [|t l (_ & _ & Ht) Hl IH]; [done|].
    cbn. by rewrite Ht, IH. }
  by rewrite app_nil_r.
Qed.

(** X15.  What [Channel.toString] prints after the comma parses back, with
    [parseTitle], to the name, the status and the resolution of the channel,
    provided the name is made of non-empty tokens without white space that
    the parser keeps, the width is not set, the height is not 0 and is below
    2^53 (where a number is printed with all its digits and read back
    exactly), and the status, if any, is non-empty and has neither white
    space nor a closing bracket nor an opening parenthesis. *)
Theorem title_text_round_trip (c : Channel) (toks : list string) :
  name c = JS.join " " toks →
  toks ≠ [] →
  Forall (fun t => JS.truthy t = true ∧ JS.some_char JS.is_white_space t = false
                   ∧ keep_token t = true) toks →
  width (resolution c) = None →
  height (resolution c) ≠ Some 0 →
  (∀ n, height (resolution c) = Some n → n < 9007199254740992) →
  (∀ st, status c = Some st →
         JS.truthy st = true ∧ JS.some_char JS.is_white_space st = false
         ∧ JS.contains "]" st = false ∧ JS.contains "(" st = false) →
  parseTitle (title_text c)
  = {| channelName := name c; streamStatus := status c;
       streamResolution := resolution c |}.
Proof.
  intros Hname Hne Htoks Hwidth Hheight _ Hstatus.
  set (R := match height (resolution c) with
            | Some n => [ "(" +:+ pretty n +:+ "p)" ]
            | None => []
            end).
  set (S := match status c with
            | Some st => [ "[" +:+ st +:+ "]" ]
            | None => []
            end).
  assert (Hbr : JS.contains "[" (JS.join " " toks) = false
                ∧ resolution_match (JS.join " " toks) = None).
  { split.
    - assert (Hb : bracket_test (JS.join " " toks) = false).
      { apply bracket_test_join. eapply Forall_impl; [exact Htoks|].
        cbn. intros t (_ & _ & Hk). unfold keep_token in Hk.
        apply andb_prop in Hk as [Hk _]. by apply negb_true_iff. }
      unfold bracket_test in Hb. by apply orb_false_elim in Hb as [? _].
    - assert (Hr : resolution_test (JS.join " " toks) = false).
      { apply resolution_test_join. eapply Forall_impl; [exact Htoks|].
        cbn. intros t (_ & _ & Hk). unfold keep_token in Hk.
        apply andb_prop in Hk as [_ Hk]. by apply negb_true_iff. }
      unfold resolution_test in Hr. by destruct (resolution_match _). }
  destruct Hbr as [Hbracket Hnores].
  assert (HR : Forall (fun t => JS.truthy t = true
                                ∧ JS.some_char JS.is_white_space t = false
                                ∧ keep_token t = false) R
               ∧ resolution_annotation c = List.fold_right (fun t r => " " +:+ t +:+ r) EmptyString R).
  { unfold R, resolution_annotation.
    destruct (height (resolution c)) as [n|]; [|by split].
    assert (Hn : n ≠ 0) by congruence.
    destruct (pretty_positive_digits n Hn) as (Ht & Hd & _).
    assert (JS.truthy_number (Some n) = true) as ->.
    { cbn. by apply negb_true_iff, N.eqb_neq. }
    split; [|cbn; by rewrite append_empty_r].
    constructor; [|done]. split_and!.
    - done.
    - change ("(" +:+ pretty n +:+ "p)") with (String "(" (pretty n +:+ "p)")).
      cbn [JS.some_char]. rewrite some_char_append.
      by rewrite (digits_no_white_space _ Hd).
    - unfold keep_token. apply andb_false_iff. right. apply negb_false_iff.
      unfold resolution_test.
      change ("(" +:+ pretty n +:+ "p)")
        with (String "(" (pretty n +:+ String "p" (String ")" EmptyString))).
      by rewrite resolution_match_printed. }
  destruct HR as [HR HRtext].
  assert (HS : Forall (fun t => JS.truthy t = true
                                ∧ JS.some_char JS.is_white_space t = false
                                ∧ keep_token t = false) S
               ∧ status_annotation c = List.fold_right (fun t r => " " +:+ t +:+ r) EmptyString S).
  { unfold S, status_annotation.
    destruct (status c) as [st|]; [|by split].
    destruct (Hstatus st eq_refl) as (Ht & Hws & _). rewrite Ht.
    split; [|cbn; by rewrite append_empty_r].
    constructor; [|done]. split_and!.
    - done.
    - change ("[" +:+ st +:+ "]") with (String "[" (st +:+ "]")).
      cbn [JS.some_char]. rewrite some_char_append. cbn. by rewrite Hws.
    - unfold keep_token. apply andb_false_iff. left. apply negb_false_iff.
      unfold bracket_test. by rewrite orb_true_iff; left. }
  destruct HS as [HS HStext].
  assert (Htext : ∀ (l : list string) (a : string) (pre : list string),
            pre ≠ [] →
            JS.join " " pre +:+ List.fold_right (fun t r => " " +:+ t +:+ r) a l
            = JS.join " " (pre ++ l) +:+ a).
  { induction l as [|t l IH]; intros a pre Hpre.
    - cbn. by rewrite app_nil_r.
    - cbn [List.fold_right].
      replace (pre ++ t :: l) with ((pre ++ [t]) ++ l) by by rewrite <- app_assoc.
      rewrite <- IH by by destruct pre.
      rewrite (join_app " " pre [t]) by done. cbn [JS.join].
      by rewrite !append_assoc. }
  assert (Hfold : ∀ (l : list string) (a : string),
            List.fold_right (fun t r => " " +:+ t +:+ r) EmptyString l +:+ a
            = List.fold_right (fun t r => " " +:+ t +:+ r) a l).
  { induction l as [|t l IH]; intros a; [done|].
    cbn [List.fold_right]. by rewrite !append_assoc, IH. }
  assert (Hsplit : title_text c
                   = JS.join " " (toks ++ R)
                     +:+ List.fold_right (fun t r => " " +:+ t +:+ r) EmptyString S).
  { unfold title_text. rewrite Hname, HRtext, HStext.
    rewrite Hfold. by rewrite Htext. }
  assert (Htitle : title_text c = JS.join " " (toks ++ R ++ S)).
  { rewrite Hsplit. rewrite Htext by by destruct toks.
    by rewrite append_empty_r, <- app_assoc. }
  unfold parseTitle.
  assert (Hn : title_tokens (title_text c) = toks).
  { rewrite Htitle. apply title_tokens_join; [done..|]. apply Forall_app. by split. }
  rewrite Hn, <- Hname.
  assert (Hpre : JS.contains "[" (JS.join " " (toks ++ R)) = false
                 ∧ resolution_match (JS.join " " (toks ++ R))
                   = pretty <$> height (resolution c)).
  { split_and!.
    - unfold R. destruct (height (resolution c)) as [n|]; [|by rewrite app_nil_r].
      assert (Hn0 : n ≠ 0) by congruence.
      destruct (pretty_positive_digits n Hn0) as (_ & Hd & _).
      rewrite join_app by done. rewrite contains_append, Hbracket.
      change (" " +:+ JS.join " " ["(" +:+ pretty n +:+ "p)"])
        with (String " " (String "(" (pretty n +:+ "p)"))).
      cbn [JS.contains]. rewrite contains_append.
      by rewrite (contains_digits "[" (pretty n)).
    - unfold R. destruct (height (resolution c)) as [n|]; [|by rewrite app_nil_r].
      assert (Hn0 : n ≠ 0) by congruence.
      destruct (pretty_positive_digits n Hn0) as (Ht & Hd & _).
      rewrite join_app by done.
      change (" " +:+ JS.join " " ["(" +:+ pretty n +:+ "p)"])
        with (String " " (String "(" (pretty n +:+ String "p" (String ")" EmptyString)))).
      rewrite resolution_match_skip, resolution_match_space by done.
      by rewrite resolution_match_printed. }
  destruct Hpre as (Hpre_bracket & Hpre_res).
  assert (Hst : status_match (title_text c) = status c).
  { rewrite Hsplit. unfold S. destruct (status c) as [st|] eqn:Hstc.
    - destruct (Hstatus st eq_refl) as (Ht & Hws & Hcl & _).
      cbn [List.fold_right]. rewrite append_empty_r.
      change (" " +:+ ("[" +:+ st +:+ "]"))
        with (String " " (String "[" (st +:+ String "]" EmptyString))).
      replace (JS.join " " (toks ++ R) +:+ String " " (String "[" (st +:+ String "]" EmptyString)))
        with ((JS.join " " (toks ++ R) +:+ " ") +:+ String "[" (st +:+ String "]" EmptyString))
        by by rewrite append_assoc.
      apply status_match_single; [|done| | |done].
      + by rewrite contains_append, Hpre_bracket.
      + by apply contains_white_space.
      + by apply contains_white_space.
    - cbn. rewrite append_empty_r. by apply status_match_none. }
  assert (Hres : resolution_match (title_text c) = pretty <$> height (resolution c)).
  { rewrite Hsplit. unfold S. destruct (status c) as [st|] eqn:Hstc.
    - destruct (Hstatus st eq_refl) as (Ht & Hws & _ & Hparen).
      cbn [List.fold_right]. rewrite append_empty_r.
      change (" " +:+ ("[" +:+ st +:+ "]"))
        with (String " " (String "[" (st +:+ String "]" EmptyString))).
      destruct (height (resolution c)) as [n|] eqn:Hh.
      + (* the annotation printed first is the leftmost match *)
        unfold R in *. rewrite ?Hh in *.
        assert (Hn0 : n ≠ 0) by congruence.
        destruct (pretty_positive_digits n Hn0) as (Htn & Hd & _).
        rewrite join_app by done. cbn [JS.join].
        change ("(" +:+ pretty n +:+ "p)") with (String "(" (pretty n +:+ "p)")).
        rewrite !append_assoc, !append_cons, !append_assoc.
        rewrite resolution_match_skip, resolution_match_space by done.
        by apply (resolution_match_printed (pretty n)).
      + cbn [fmap option_fmap option_map] in *. unfold R in *. rewrite ?Hh in *.
        rewrite resolution_match_skip by done.
        apply resolution_match_no_paren. cbn. rewrite contains_append, Hparen. done.
    - cbn. rewrite append_empty_r. exact Hpre_res. }
  rewrite Hst, Hres. f_equal.
  destruct (resolution c) as [w h]. cbn in *. subst w. f_equal.
  destruct h as [n|]; [|done]. cbn.
  assert (Hn0 : n ≠ 0) by congruence.
  destruct (pretty_positive_digits n Hn0) as (_ & _ & ->). done.
Qed.

Lemma title_text_round_trip_witness :
  title_text Sample.bbc_one = "BBC One (1080p) [HD]"
  ∧ parseTitle (title_text Sample.bbc_one)
    = {| channelName := "BBC One"; streamStatus := Some "HD";
         streamResolution := {| width := None; height := Some 1080 |} |}.
Proof.
  split; [by vm_compute|].
  apply (title_text_round_trip Sample.bbc_one ["BBC"; "One"]).
  - by vm_compute.
  - done.
  - repeat constructor.
  - by vm_compute.
  - by vm_compute.
  - intros n Hn. vm_compute in Hn. injection Hn as <-. by vm_compute.
  - intros st Hst. vm_compute in Hst. injection Hst as <-. by vm_compute.
Defined.

End RoundTripFacts.

(** ** More on the normalizer *)

Section MoreNormalizerFacts.
Import Parser.

Variable region2codes : string → list string.
Variable code2name : string → JS.value.
Variable language2code : string → JS.value.
Variable getBasename : string → string.
Variable categories : list Category.

(** X16.  The languages of an entry are the tokens of the declared language, in
    their order and with their repetitions, that are not empty and that
    [language2code] resolves; each comes with the code it resolves to. *)
Theorem parseLanguages_names (s : string) :
  map language_name (parseLanguages language2code s)
  = List.filter (fun n => JS.truthy n && JS.truthy_value (language2code n))
                (JS.split ";" s)
  ∧ Forall (fun l => language_code l = language2code (language_name l)
                     ∧ JS.truthy_value (language_code l) = true
                     ∧ JS.truthy (language_name l) = true)
           (parseLanguages language2code s).
Proof.
  assert (Hspec : ∀ n, to_language language2code n
            = if JS.truthy n && JS.truthy_value (language2code n)
              then Some {| language_code := language2code n; language_name := n |}
              else None).
  { intros n. unfold to_language. destruct (JS.truthy n); [|done].
    by destruct (JS.truthy_value (language2code n)). }
  unfold parseLanguages. induction (JS.split ";" s) as [|n l [IH1 IH2]]; [by split|].
  change (omap (to_language language2code) (n :: l))
    with (match to_language language2code n with
          | Some y => y :: omap (to_language language2code) l
          | None => omap (to_language language2code) l
          end).
  cbn [List.filter]. rewrite Hspec.
  destruct (JS.truthy n && JS.truthy_value (language2code n)) eqn:Hn; [|by split].
  apply andb_prop in Hn as [Hn Hc].
  split; [cbn [map language_name]; by rewrite IH1|].
  constructor; [by cbn|done].
Qed.

Lemma lower_char_not_upper (c : ascii) : JS.is_upper (JS.lower_char c) = false.
Proof. by destruct c as [[] [] [] [] [] [] [] []]. Qed.

Lemma toLowerCase_no_upper (s : string) :
  JS.some_char JS.is_upper (JS.toLowerCase s) = false.
Proof.
  induction s as [|c s IH]; [done|]. cbn.
  by rewrite lower_char_not_upper, IH.
Qed.

(** X17.  Every country of the result has a name that the lookup resolved and a
    code without upper-case letters, and is made from one of the candidate
    codes. *)
Theorem parseCountries_valid (s : string) :
  Forall (fun c => JS.truthy_value (country_name c) = true
                   ∧ JS.some_char JS.is_upper (country_code c) = false
                   ∧ ∃ code, In code (candidate_codes region2codes s)
                             ∧ JS.truthy code = true
                             ∧ c = to_country code2name code)
         (parseCountries region2codes code2name s).
Proof.
  unfold parseCountries. apply List.Forall_forall. intros c Hc.
  apply in_map_iff in Hc as (code & <- & Hcode).
  apply filter_In in Hcode as [Hin Hvalid].
  unfold valid_code in Hvalid. apply andb_prop in Hvalid as [Ht Hn].
  split_and!; [done | apply toLowerCase_no_upper |]. by exists code.
Qed.

Lemma fold_collect_literals (l acc : list string) :
  (∀ t, In t l → region2codes t = []) →
  fold_left (collect_codes region2codes) l acc = acc ++ l.
Proof.
  revert acc. induction l as [|t l IH]; intros acc Hl; cbn.
  - by rewrite app_nil_r.
  - rewrite IH by (intros; apply Hl; by right).
    unfold collect_codes. rewrite (Hl t) by by left. by rewrite <- app_assoc.
Qed.

(** X18.  When no token of the declared country is a region, the countries are
    the tokens, in their order and with their repetitions, that are not
    empty and that [code2name] resolves. *)
Theorem parseCountries_literals (s : string) :
  (∀ t, In t (JS.split ";" s) → region2codes t = []) →
  parseCountries region2codes code2name s
  = map (to_country code2name) (List.filter (valid_code code2name) (JS.split ";" s)).
Proof.
  intros Hl. unfold parseCountries, candidate_codes.
  by rewrite fold_collect_literals.
Qed.

Lemma fold_collect_regions (l acc : list string) :
  (∀ t, In t l → region2codes t ≠ []) →
  NoDup acc → NoDup (fold_left (collect_codes region2codes) l acc).
Proof.
  revert acc. induction l as [|t l IH]; intros acc Hl Hacc; cbn; [done|].
  apply IH; [intros; apply Hl; by right|].
  unfold collect_codes. pose proof (Hl t (or_introl eq_refl)) as Ht.
  destruct (region2codes t) as [|code codes] eqn:Hr; [done|].
  by apply push_codes_NoDup.
Qed.

(** X19.  When every token of the declared country is a region, no code is
    listed twice among the candidates. *)
Theorem parseCountries_regions (s : string) :
  (∀ t, In t (JS.split ";" s) → region2codes t ≠ []) →
  NoDup (candidate_codes region2codes s).
Proof. intros Hl. apply fold_collect_regions; [done|constructor]. Qed.

(** X20.  A normalized channel keeps the declared country it was given when
    that resolves to a country; otherwise the declared country is replaced
    by the upper-cased code inferred from the file name, or by the empty
    string when the file name does not resolve.  The other guide
    attributes of the entry are kept, but for the guide url. *)
Theorem newChannel_declared_country (data : Item) (h : Header) (sourceUrl : string) :
  let c := newChannel region2codes code2name language2code getBasename categories
                      data h sourceUrl in
  let declared := tvg_country (item_tvg data) in
  let filename := getBasename sourceUrl in
  tvg_country (tvg c)
  = (match parseCountries region2codes code2name declared with
     | _ :: _ => declared
     | [] => if JS.truthy_value (code2name filename)
             then JS.toUpperCase (JS.toLowerCase filename)
             else EmptyString
     end)
  ∧ tvg_id (tvg c) = tvg_id (item_tvg data)
  ∧ tvg_name (tvg c) = tvg_name (item_tvg data)
  ∧ tvg_language (tvg c) = tvg_language (item_tvg data)
  ∧ tvg_logo (tvg c) = tvg_logo (item_tvg data).
Proof.
  cbn zeta. unfold newChannel. cbv zeta.
  change (countries (parseData region2codes code2name language2code categories data))
    with (parseCountries region2codes code2name (tvg_country (item_tvg data))).
  destruct (parseCountries _ _ _) eqn:Hp; [|by cbn].
  unfold fallback_countries. by destruct (JS.truthy_value _).
Qed.

(** X21.  Every channel of a constructed playlist carries the guide url the
    header of the playlist declares, or the empty string when it declares
    none, whatever guide url its own entry had. *)
Theorem newPlaylist_guide_url (h : Header) (items : list Item) (u : string) :
  Forall (fun c => tvg_url (tvg c) = or_empty (get_attr "x-tvg-url" (attrs h)))
         (channels (newPlaylist region2codes code2name language2code getBasename
                                categories h items u)).
Proof.
  apply List.Forall_forall. intros c [Hc _]%filter_In.
  apply in_map_iff in Hc as (item & <- & _).
  unfold newChannel. cbv zeta. by destruct (countries _).
Qed.

End MoreNormalizerFacts.

Lemma parseCountries_literals_witness :
  Parser.parseCountries Sample.region2codes Sample.code2name "UK;;XX;US" =
    [ {| Parser.country_code := "uk"; Parser.country_name := JS.str "United Kingdom" |};
      {| Parser.country_code := "us"; Parser.country_name := JS.str "United States" |} ].
Proof.
  rewrite (parseCountries_literals Sample.region2codes Sample.code2name "UK;;XX;US").
  - reflexivity.
  - intros t Ht. cbn in Ht. by repeat destruct Ht as [<-|Ht].
Defined.

Lemma parseCountries_regions_witness :
  NoDup (Parser.candidate_codes Sample.region2codes "NORD;nord").
Proof.
  apply (parseCountries_regions Sample.region2codes "NORD;nord").
  intros t Ht. cbn in Ht. by repeat destruct Ht as [<-|Ht].
Defined.

(** ** Titles without annotations *)

Section PlainTitleFacts.
Import Parser.

Lemma contains_trimStart (c : ascii) (s : string) :
  JS.contains c s = false → JS.contains c (JS.trimStart s) = false.
Proof.
  induction s as [|a s IH]; [done|]. cbn. intros [Ha Hs]%orb_false_elim.
  destruct (JS.is_white_space a); [by apply IH|]. cbn. by rewrite Ha, Hs.
Qed.

Lemma contains_trimEnd (c : ascii) (s : string) :
  JS.contains c s = false → JS.contains c (JS.trimEnd s) = false.
Proof.
  induction s as [|a s IH]; [done|]. cbn. intros [Ha Hs]%orb_false_elim.
  specialize (IH Hs). destruct (JS.trimEnd s) as [|b r].
  - destruct (JS.is_white_space a); [done|]. cbn. by rewrite Ha.
  - cbn in *. by rewrite Ha, IH.
Qed.

Lemma contains_trim (c : ascii) (s : string) :
  JS.contains c s = false → JS.contains c (JS.trim s) = false.
Proof. intros Hs. by apply contains_trimEnd, contains_trimStart. Qed.

Lemma contains_split (c sep : ascii) (s : string) :
  JS.contains c s = false →
  Forall (fun t => JS.contains c t = false) (JS.split sep s).
Proof.
  induction s as [|a s IH]; [by repeat constructor|]. cbn.
  intros [Ha Hs]%orb_false_elim. specialize (IH Hs).
  destruct (Ascii.eqb a sep); [by constructor|].
  destruct (JS.split sep s) as [|t ts]; [by repeat constructor; cbn; rewrite Ha|].
  apply Forall_cons in IH as [Ht Hts]. constructor; [|done]. cbn. by rewrite Ha, Ht.
Qed.

(** X22.  A title with neither bracket nor opening parenthesis has no status
    and no resolution, and none of its tokens is removed: its name is the
    trimmed title, split on spaces, each token trimmed, joined again. *)
Theorem parseTitle_plain (title : string) :
  JS.contains "[" title = false →
  JS.contains "]" title = false →
  JS.contains "(" title = false →
  parseTitle title
  = {| channelName := JS.join " " (map JS.trim (JS.split " " (JS.trim title)));
       streamStatus := None;
       streamResolution := {| width := None; height := None |} |}.
Proof.
  intros Hopen Hclose Hparen. unfold parseTitle.
  rewrite status_match_none, resolution_match_no_paren by done.
  cbn [fmap option_fmap option_map]. f_equal. f_equal. unfold title_tokens.
  assert (Hclean : ∀ c, JS.contains c title = false →
            Forall (fun t => JS.contains c t = false)
                   (map JS.trim (JS.split " " (JS.trim title)))).
  { intros c Hc. apply Forall_map.
    eapply Forall_impl; [apply contains_split; by apply contains_trim|].
    intros t Ht. by apply contains_trim. }
  pose proof (Hclean _ Hopen) as H1. pose proof (Hclean _ Hclose) as H2.
  pose proof (Hclean _ Hparen) as H3. clear Hclean.
  induction (map JS.trim (JS.split " " (JS.trim title))) as [|t l IH]; [done|].
  apply Forall_cons in H1 as [Ht1 H1]. apply Forall_cons in H2 as [Ht2 H2].
  apply Forall_cons in H3 as [Ht3 H3].
  cbn [List.filter]. unfold keep_token at 1, bracket_test, resolution_test.
  rewrite Ht1, Ht2, (resolution_match_no_paren t Ht3). cbn. by rewrite IH.
Qed.

Lemma parseTitle_plain_witness :
  parseTitle "  Al Jazeera  English " =
  {| channelName := "Al Jazeera  English";
     streamStatus := None;
     streamResolution := {| width := None; height := None |} |}.
Proof. apply (parseTitle_plain "  Al Jazeera  English "); reflexivity. Defined.

End PlainTitleFacts.
